(** * ifcloud-core: the file delete service

    A shallow embedding of [src/services/file/delete.service.ts]
    ([FileDeleteService]: [deleteFile], [deleteTemporaryFile],
    [moveToTrash]) over a model of the Prisma tables it reads and writes,
    and of the chunk assembler described by the design document. *)

From Stdlib Require Import ZArith List String Bool Lia.
From stdpp Require Import gmap strings list.
Import ListNotations.

Local Open Scope string_scope.
Local Open Scope list_scope.
Local Open Scope Z_scope.

(** ** The tables *)

(** [enum file_type] of the Prisma schema. *)
Inductive file_type := container | block | link.

Definition file_type_eqb (a b : file_type) : bool :=
  match a, b with
  | container, container | block, block | link, link => true
  | _, _ => false
  end.

(** [model file]: [id] is a BigInt primary key, [file_key] a unique uuid. *)
Module file.
Record t := mk
  { id : Z;
    file_key : string;
    type : file_type;
    file_name : string;
    owner_id : Z }.
End file.

(** [file_path]: the row the service reaches as [file.file_path] and through
    [prisma.file_path]. The schema at hand does not declare this model; its
    fields are the ones the service uses: [file_id], the unique key it updates
    a row by, and [path], the array of the identifiers of the ancestors of the
    file, the root first. *)
Module file_path.
Record t := mk
  { file_id : Z;
    path : list Z }.
End file_path.

(** [model temp_file]; [create_date] is kept as a number. *)
Module temp_file.
Record t := mk
  { id : Z;
    owner_id : Z;
    file_key : string;
    file_name : string;
    byte_size : Z;
    create_date : Z;
    parent_id : Z }.
End temp_file.

(** The rows of the tables the service touches, in table order. *)
Record database := mkDb
  { files : list file.t;
    file_paths : list file_path.t;
    temp_files : list temp_file.t }.

(** What the service acts on: the relational store, the blobs held by the
    storage service, the keys [storageService.deleteFile] was invoked with
    (latest first), and the errors the store is going to raise: one flag per
    statement still to come, [true] when that statement is refused. *)
Record world := mkWorld
  { db : database;
    blobs : gset string;
    storage_calls : list string;
    faults : list bool }.

Definition set_db (d : database) (w : world) : world :=
  mkWorld d (blobs w) (storage_calls w) (faults w).

Definition set_faults (fs : list bool) (w : world) : world :=
  mkWorld (db w) (blobs w) (storage_calls w) fs.

(** ** Exceptions and the monad of the service *)

(** The Nest exceptions the service throws, with their messages, and the
    errors of the Prisma client: a known request error carries its code
    ([P2025]: a record the statement needs was not found), any other failure
    of the store is an unknown request error. *)
Inductive exn :=
| NotFoundException (message : string)
| InternalServerErrorException (message : string)
| BadRequestException (message : string)
| PrismaClientKnownRequestError (code : string)
| PrismaClientUnknownRequestError.

Definition P2025 : exn := PrismaClientKnownRequestError "P2025".

(** An [async] method: it runs on a world and ends in a value or in a thrown
    exception; what it did before throwing stays done. *)
Definition M (A : Type) : Type := world -> (exn + A) * world.

Definition ret {A} (a : A) : M A := fun w => (inr a, w).

Definition throw {A} (e : exn) : M A := fun w => (inl e, w).

Definition bind {A B} (m : M A) (k : A -> M B) : M B :=
  fun w =>
    match m w with
    | (inl e, w') => (inl e, w')
    | (inr a, w') => k a w'
    end.

Notation "'let*' x ':=' m 'in' k" := (bind m (fun x => k))
  (at level 10, x name, m at level 100, k at level 200).
Notation "'let*' ( x , y ) ':=' m 'in' k" := (bind m (fun '(x, y) => k))
  (at level 10, x name, y name, m at level 100, k at level 200).
Notation "'do' m 'then' k" := (bind m (fun _ => k))
  (at level 10, m at level 100, k at level 200).

(** [throw] under a condition, as in [if (c) { throw e }]. *)
Definition throw_if (c : bool) (e : exn) : M unit :=
  if c then throw e else ret tt.

(** One statement sent to the store. The store may refuse it (the next fault
    flag); otherwise the query runs on the tables, and a query that fails
    changes nothing. *)
Definition statement {A} (q : database -> exn + (A * database)) : M A :=
  fun w =>
    let w' := set_faults (tl (faults w)) w in
    match faults w with
    | true :: _ => (inl PrismaClientUnknownRequestError, w')
    | _ =>
        match q (db w) with
        | inl e => (inl e, w')
        | inr (a, d) => (inr a, set_db d w')
        end
    end.

(** A read-only statement. *)
Definition query {A} (q : database -> A) : M A :=
  statement (fun d => inr (q d, d)).

Fixpoint sequence {A} (ms : list (M A)) : M (list A) :=
  match ms with
  | [] => ret []
  | m :: ms' => let* a := m in let* r := sequence ms' in ret (a :: r)
  end.

(** [prisma.$transaction([...])]: the statements run in order; when one of
    them throws, the tables are put back as they were. *)
Definition transaction {A} (ms : list (M A)) : M (list A) :=
  fun w =>
    match sequence ms w with
    | (inl e, w') => (inl e, set_db (db w) w')
    | (inr r, w') => (inr r, w')
    end.

(** ** Array helpers *)

Definition mem (x : Z) (l : list Z) : bool := existsb (Z.eqb x) l.

(** The Prisma list filter [hasEvery]: every given value occurs in the
    column. *)
Definition hasEvery (column values : list Z) : bool :=
  forallb (fun v => mem v column) values.

(** The Prisma list filter [equals]. *)
Fixpoint equals (a b : list Z) : bool :=
  match a, b with
  | [], [] => true
  | x :: a', y :: b' => Z.eqb x y && equals a' b'
  | _, _ => false
  end.

(** [Array.prototype.slice(start)]: a negative [start] counts from the end,
    and the index is clamped to the array. *)
Definition slice {A} (l : list A) (start : Z) : list A :=
  let len := Z.of_nat (length l) in
  let k := if start <? 0 then Z.max (len + start) 0 else Z.min start len in
  skipn (Z.to_nat k) l.

(** [Array.prototype.length]. *)
Definition len {A} (l : list A) : Z := Z.of_nat (length l).

(** ** Prisma queries *)

(** The relation [file.file_path] ([include: { file_path: true }]). *)
Definition file_path_of (d : database) (f : file.t) : option file_path.t :=
  List.find (fun p => Z.eqb (file_path.file_id p) (file.id f)) (file_paths d).

(** The relation [file_path.file]. *)
Definition file_of (d : database) (p : file_path.t) : option file.t :=
  List.find (fun f => Z.eqb (file.id f) (file_path.file_id p)) (files d).

(** The row [where: { file_key }] selects, with [include: { file_path: true }].
    Keys are compared in the text form the store gives them in; another
    spelling of the same uuid (upper case, say), which the [@db.Uuid] column
    would also accept, is not a key of the model. *)
Definition lookup (d : database) (fileKey : string)
  : option (file.t * option file_path.t) :=
  match List.find (fun f => String.eqb (file.file_key f) fileKey) (files d) with
  | Some f => Some (f, file_path_of d f)
  | None => None
  end.

(** [prisma.file.findUniqueOrThrow({ include: { file_path: true },
    where: { file_key } })]. *)
Definition file_findUniqueOrThrow (fileKey : string)
  : M (file.t * option file_path.t) :=
  statement (fun d =>
    match lookup d fileKey with
    | Some r => inr (r, d)
    | None => inl P2025
    end).

(** The rows [where: { path: { hasEvery: values } }] selects. *)
Definition paths_hasEvery (d : database) (values : list Z) : list file_path.t :=
  List.filter (fun p => hasEvery (file_path.path p) values) (file_paths d).

(** The files of these rows ([select: { file: true }]). *)
Definition files_hasEvery (d : database) (values : list Z) : list file.t :=
  flat_map (fun p => match file_of d p with Some f => [f] | None => [] end)
    (paths_hasEvery d values).

(** [prisma.file_path.findMany({ where: { path: { hasEvery } } })]. *)
Definition file_path_findMany (values : list Z) : M (list file_path.t) :=
  query (fun d => paths_hasEvery d values).

(** The same with [select: { file: true }]. *)
Definition file_path_findMany_file (values : list Z) : M (list file.t) :=
  query (fun d => files_hasEvery d values).

(** Deleting the [file] rows that satisfy [sel]. The rows that refer to a
    deleted file go with it: every relation to [file] in the schema is
    [onDelete: Cascade], [temp_file.parent_id] among them, and the path row of
    a file is taken to follow the same rule (the design document: the cascade
    removes what hangs on a node). *)
Definition delete_files (sel : file.t -> bool) (d : database) : database :=
  let gone := map file.id (List.filter sel (files d)) in
  mkDb (List.filter (fun f => negb (sel f)) (files d))
       (List.filter (fun p => negb (mem (file_path.file_id p) gone)) (file_paths d))
       (List.filter (fun t => negb (mem (temp_file.parent_id t) gone)) (temp_files d)).

(** [prisma.file.deleteMany({ where: { id: { in: ids } } })]: the count of
    the rows deleted. *)
Definition file_deleteMany (ids : list Z) : M Z :=
  statement (fun d =>
    let sel := fun f => mem (file.id f) ids in
    inr (len (List.filter sel (files d)), delete_files sel d)).

(** [prisma.file.delete({ where: { id } })]: the row deleted; the statement
    throws when there is none. *)
Definition file_delete (i : Z) : M file.t :=
  statement (fun d =>
    let sel := fun f => Z.eqb (file.id f) i in
    match List.find sel (files d) with
    | Some f => inr (f, delete_files sel d)
    | None => inl P2025
    end).

(** [prisma.temp_file.delete({ where: { id } })]. *)
Definition temp_file_delete (i : Z) : M temp_file.t :=
  statement (fun d =>
    let sel := fun t => Z.eqb (temp_file.id t) i in
    match List.find sel (temp_files d) with
    | Some t =>
        inr (t, mkDb (files d) (file_paths d)
                  (List.filter (fun t => negb (sel t)) (temp_files d)))
    | None => inl P2025
    end).

(** The path rows with the path of the row of [i] replaced. *)
Definition set_path (i : Z) (new_path : list Z) (ps : list file_path.t)
  : list file_path.t :=
  map (fun p =>
         if Z.eqb (file_path.file_id p) i then file_path.mk i new_path else p)
    ps.

(** [prisma.file_path.update({ where: { file_id }, data: { path } })]: the row
    updated; the statement throws when there is none. *)
Definition file_path_update (i : Z) (new_path : list Z) : M file_path.t :=
  statement (fun d =>
    match List.find (fun p => Z.eqb (file_path.file_id p) i) (file_paths d) with
    | Some _ =>
        inr (file_path.mk i new_path,
             mkDb (files d) (set_path i new_path (file_paths d)) (temp_files d))
    | None => inl P2025
    end).

(** ** The storage service *)

(** Modelled from the spec: [StorageService.deleteFile]
    ([services/storage/storage.service], whose code is not among the sources
    covered here) is the Blob Gateway's [delete(key) -> ok]: it removes the
    blob and does not fail when there is none. The service calls it without
    awaiting it, so the call is recorded and the caller goes on. *)
Definition storageService_deleteFile (key : string) : M unit :=
  fun w =>
    (inr tt, mkWorld (db w) (blobs w ∖ {[key]}) (key :: storage_calls w) (faults w)).

Fixpoint for_each {A} (f : A -> M unit) (l : list A) : M unit :=
  match l with
  | [] => ret tt
  | a :: l' => do f a then for_each f l'
  end.

(** ** The service *)

(** [SpecialContainerNameSchema.enum.trash]: a member of a zod enum is its own
    name. *)
Definition SpecialContainerNameSchema_enum_trash : string := "trash".

(** The trash containers of a member: the files the member owns that are
    named as the trash is and whose path is the root alone. *)
Definition trash_containers (d : database) (memberId rootFileId : Z)
  : list file.t :=
  List.filter
    (fun f =>
       Z.eqb (file.owner_id f) memberId
       && String.eqb (file.file_name f) SpecialContainerNameSchema_enum_trash
       && match file_path_of d f with
          | Some p => equals (file_path.path p) [rootFileId]
          | None => false
          end)
    (files d).

(** [prisma.file.findMany] of [moveToTrash], with
    [select: { id: true, file_path: true }]. *)
Definition file_findMany_trash (memberId rootFileId : Z)
  : M (list (Z * option file_path.t)) :=
  query (fun d =>
    map (fun f => (file.id f, file_path_of d f))
      (trash_containers d memberId rootFileId)).

Section FileDeleteService.

(** [name in SpecialContainerNameSchema.enum]: the schema
    ([schemas/file.schema]) is not among the sources covered here, so the
    test of membership in its enum object is a parameter of the service. *)
Variable in_SpecialContainerNameSchema_enum : string -> bool.

(** The guard both methods share: a well-known name on a path of at most one
    identifier. *)
Definition is_special_container (f : file.t) (p : file_path.t) : bool :=
  in_SpecialContainerNameSchema_enum (file.file_name f)
  && (len (file_path.path p) <=? 1).

(** [FileDeleteService.deleteFile]. *)
Definition deleteFile (fileKey : string) : M file.t :=
  let* (file, file_path) := file_findUniqueOrThrow fileKey in
  match file_path with
  | None => throw (InternalServerErrorException "File path not found")
  | Some file_path =>
      do throw_if (is_special_container file file_path)
           (BadRequestException "Cannot remove special container") then
      do (if file_type_eqb (file.type file) block
          then storageService_deleteFile (file.file_key file)
          else ret tt) then
      let* ancestors :=
        file_path_findMany_file (file_path.path file_path ++ [file.id file]) in
      do for_each (fun ancestor => storageService_deleteFile (file.file_key ancestor))
           (List.filter (fun ancestor => file_type_eqb (file.type ancestor) block)
              ancestors) then
      do file_deleteMany (map file.id ancestors) then
      file_delete (file.id file)
  end.

(** [FileDeleteService.deleteTemporaryFile]. *)
Definition deleteTemporaryFile (fileId : Z) : M temp_file.t :=
  temp_file_delete fileId.

(** [FileDeleteService.moveToTrash]. *)
Definition moveToTrash (memberId rootFileId : Z) (targetFileKey : string)
  : M bool :=
  let* trash := file_findMany_trash memberId rootFileId in
  match trash with
  | [] | (_, None) :: _ => throw (NotFoundException "Trash not found")
  | (trash0_id, Some trash0_file_path) :: _ =>
      do throw_if (1 <? len trash)
           (InternalServerErrorException "Multiple trash found") then
      let trashPath := file_path.path trash0_file_path ++ [trash0_id] in
      let* (target, target_file_path) := file_findUniqueOrThrow targetFileKey in
      match target_file_path with
      | None => throw (InternalServerErrorException "Target file path not found")
      | Some target_file_path =>
          do throw_if (is_special_container target target_file_path)
               (BadRequestException "Cannot remove special container to trash") then
          let targetPath := file_path.path target_file_path ++ [file.id target] in
          let* targetAncestors := file_path_findMany targetPath in
          let targets := targetAncestors ++ [target_file_path] in
          do transaction
               (map (fun ancestor =>
                       file_path_update (file_path.file_id ancestor)
                         (trashPath
                          ++ slice (file_path.path ancestor) (len targetPath - 1)))
                  targets) then
          ret true
      end
  end.

End FileDeleteService.

(** ** A small store to run the service on *)

(** The enum with the trash as its only member. *)
Definition enum_trash_only (name : string) : bool :=
  String.eqb name "trash".

Definition f_root : file.t := file.mk 1 "k-root" container "root" 7.
Definition f_trash : file.t := file.mk 2 "k-trash" container "trash" 7.
Definition f_docs : file.t := file.mk 3 "k-docs" container "docs" 7.
Definition f_a : file.t := file.mk 4 "k-a" block "a.txt" 7.
Definition f_sub : file.t := file.mk 5 "k-sub" container "trash" 7.
Definition f_b : file.t := file.mk 6 "k-b" block "b.txt" 7.
Definition f_c : file.t := file.mk 8 "k-c" block "c.txt" 7.
Definition f_nopath : file.t := file.mk 9 "k-nopath" block "lost.bin" 7.
Definition g_root : file.t := file.mk 10 "k-root10" container "root" 20.
Definition g_x : file.t := file.mk 11 "k-x" block "x.txt" 20.
Definition h_root : file.t := file.mk 12 "k-root12" container "root" 30.
Definition h_trash1 : file.t := file.mk 13 "k-t1" container "trash" 30.
Definition h_trash2 : file.t := file.mk 14 "k-t2" container "trash" 30.
Definition h_y : file.t := file.mk 15 "k-y" block "y.txt" 30.

(** Three members. Member 7 owns
    root / { trash, docs / { a.txt, trash / b.txt }, c.txt } and a file
    without a path row; member 20 owns root / x.txt and no trash; member 30
    owns root / { trash, trash, y.txt }. One upload to docs is in flight. *)
Definition db0 : database :=
  mkDb [f_root; f_trash; f_docs; f_a; f_sub; f_b; f_c; f_nopath;
        g_root; g_x; h_root; h_trash1; h_trash2; h_y]
       [file_path.mk 1 []; file_path.mk 2 [1]; file_path.mk 3 [1];
        file_path.mk 4 [1; 3]; file_path.mk 5 [1; 3]; file_path.mk 6 [1; 3; 5];
        file_path.mk 8 [1];
        file_path.mk 10 []; file_path.mk 11 [10];
        file_path.mk 12 []; file_path.mk 13 [12]; file_path.mk 14 [12];
        file_path.mk 15 [12]]
       [temp_file.mk 1 7 "k-up" "up.bin" 0 0 3].

(** The store with the blob of every block file in the storage, and the
    faults to come. *)
Definition w0 (fs : list bool) : world :=
  mkWorld db0 {[ "k-a"; "k-b"; "k-c"; "k-nopath"; "k-x"; "k-y" ]} [] fs.

(** Two members with a trash container each. Member 7 owns
    root / { trash, docs / a.txt }, member 8 owns root / trash. *)
Definition db1 : database :=
  mkDb [f_root; f_trash; f_docs; f_a;
        file.mk 10 "k-root10" container "root" 8;
        file.mk 11 "k-trash11" container "trash" 8]
       [file_path.mk 1 []; file_path.mk 2 [1]; file_path.mk 3 [1];
        file_path.mk 4 [1; 3];
        file_path.mk 10 []; file_path.mk 11 [10]]
       [].

Definition w1 : world := mkWorld db1 {[ "k-a" ]} [] [].

(** ** What the store guarantees *)

Fixpoint distinct {A} (eqb : A -> A -> bool) (l : list A) : bool :=
  match l with
  | [] => true
  | x :: l' => negb (existsb (eqb x) l') && distinct eqb l'
  end.

(** The constraints of the schema the service relies on: the primary key of
    [file], the unique [file_key], the unique [file_id] of a path row and its
    reference to a [file]. *)
Record constraints (d : database) : Prop := mkConstraints
  { pk_file : List.NoDup (map file.id (files d));
    uni_file_file_key : List.NoDup (map file.file_key (files d));
    uni_file_path_file_id : List.NoDup (map file_path.file_id (file_paths d));
    fk_file_path_file_id :
      forall p, In p (file_paths d) ->
        In (file_path.file_id p) (map file.id (files d)) }.

Definition check_constraints (d : database) : bool :=
  distinct Z.eqb (map file.id (files d))
  && distinct String.eqb (map file.file_key (files d))
  && distinct Z.eqb (map file_path.file_id (file_paths d))
  && forallb (fun p => mem (file_path.file_id p) (map file.id (files d)))
       (file_paths d).

(** The paths are materialized: the path of a file is empty (a root) or the
    path of another file followed by that file's identifier (its parent). *)
Definition materialized (d : database) : Prop :=
  forall p, In p (file_paths d) ->
    file_path.path p = [] \/
    exists q, In q (file_paths d) /\
      file_path.path p = file_path.path q ++ [file_path.file_id q].

Definition check_materialized (d : database) : bool :=
  forallb
    (fun p =>
       match file_path.path p with
       | [] => true
       | _ =>
           existsb
             (fun q =>
                equals (file_path.path p)
                  (file_path.path q ++ [file_path.file_id q]))
             (file_paths d)
       end)
    (file_paths d).

(** The descendants of a file as the service computes them: the files whose
    path holds every identifier of the path of the file and its own. *)
Definition descendantsOf (d : database) (f : file.t) (p : file_path.t)
  : list file.t :=
  files_hasEvery d (file_path.path p ++ [file.id f]).

(** The path stored for the file with identifier [i]. *)
Definition path_of (d : database) (i : Z) : option (list Z) :=
  match List.find (fun p => Z.eqb (file_path.file_id p) i) (file_paths d) with
  | Some p => Some (file_path.path p)
  | None => None
  end.

Definition is_block (f : file.t) : bool := file_type_eqb (file.type f) block.

(** Every block row has its blob in the storage. *)
Definition blobs_present (w : world) : Prop :=
  forall f, In f (files (db w)) -> file.type f = block ->
    file.file_key f ∈ blobs w.


(** ** Runs of the service *)

(** The calls a client can make. *)
Inductive call :=
| DeleteFile (fileKey : string)
| DeleteTemporaryFile (fileId : Z)
| MoveToTrash (memberId rootFileId : Z) (targetFileKey : string).

(** The exception a run ended with, if any. *)
Definition thrown {A} (r : (exn + A) * world) : option exn :=
  match fst r with
  | inl e => Some e
  | inr _ => None
  end.

Definition run_call (special : string -> bool) (c : call) (w : world)
  : option exn * world :=
  match c with
  | DeleteFile fileKey =>
      let r := deleteFile special fileKey w in (thrown r, snd r)
  | DeleteTemporaryFile fileId =>
      let r := deleteTemporaryFile fileId w in (thrown r, snd r)
  | MoveToTrash memberId rootFileId targetFileKey =>
      let r := moveToTrash special memberId rootFileId targetFileKey w in
      (thrown r, snd r)
  end.

(** A [deleteFile] went through, or stopped before its first call to the
    storage; the other calls never reach the storage. *)
Definition settled (special : string -> bool) (c : call) (w : world) : Prop :=
  match c with
  | DeleteFile _ =>
      fst (run_call special c w) = None
      \/ storage_calls (snd (run_call special c w)) = storage_calls w
  | _ => True
  end.

(** The states the service reaches from [w0] by settled calls, whatever the
    store refuses in each of them. *)
Inductive reachable (special : string -> bool) (w0 : world) : world -> Prop :=
| reachable_start : reachable special w0 w0
| reachable_call w c fs :
    reachable special w0 w ->
    settled special c (set_faults fs w) ->
    reachable special w0 (snd (run_call special c (set_faults fs w))).


(** ** Relations between the states before and after a call *)

(** Whatever its outcome, [m] takes a world to a world related to it. *)
Definition preserves (R : world -> world -> Prop) {A} (m : M A) : Prop :=
  forall w, R w (snd (m w)).

(** The relation every call of the service keeps: the constraints stay, no
    file row appears, and the blobs that went are those of the new calls to
    the storage. *)
Definition shrinks (w w' : world) : Prop :=
  (constraints (db w) -> constraints (db w'))
  /\ (forall f, In f (files (db w')) -> In f (files (db w)))
  /\ exists calls,
       storage_calls w' = calls ++ storage_calls w
       /\ blobs w' = blobs w ∖ list_to_set calls.

(** The relation the calls other than [deleteFile] keep: the constraints
    stay, the files and the storage are what they were. *)
Definition keeps (w w' : world) : Prop :=
  (constraints (db w) -> constraints (db w'))
  /\ files (db w') = files (db w)
  /\ blobs w' = blobs w
  /\ storage_calls w' = storage_calls w.

(** The paths a move of [target] to the trash [t] asks for. *)
Definition moved_path (trashp : file_path.t) (t : file.t)
    (tp : file_path.t) (target : file.t) (ancestor : file_path.t) : list Z :=
  (file_path.path trashp ++ [file.id t])
  ++ slice (file_path.path ancestor)
       (len (file_path.path tp ++ [file.id target]) - 1).

(** The relation [moveToTrash] keeps whatever its outcome: only the paths
    can change, not the rows that carry them. *)
Definition only_paths (w w' : world) : Prop :=
  files (db w') = files (db w)
  /\ temp_files (db w') = temp_files (db w)
  /\ map file_path.file_id (file_paths (db w')) =
     map file_path.file_id (file_paths (db w))
  /\ blobs w' = blobs w
  /\ storage_calls w' = storage_calls w.

(** Whether a path row is the row of [target] or goes through [target]. *)
Definition in_subtree (target : file.t) (q : file_path.t) : bool :=
  Z.eqb (file_path.file_id q) (file.id target)
  || mem (file.id target) (file_path.path q).

(** ** The chunk assembler *)

(** Modelled from the spec: the Chunk Assembler of the design document
    (section 4.3). Its code is not among the sources covered here, which only
    hold the tests of an upload service with the methods [uploadChunk] and
    [mergeChunks]. A
    chunk is written to the scratch storage under its upload key and its
    index; the indices received are tracked per upload key as a set; the
    chunk that completes the set triggers the merge, which reads the scratch
    chunks in index order, writes their concatenation to the Blob Gateway
    under the permanent key of the upload and deletes the scratch chunks. A
    failed scratch write or merge write is an [IOError], and what was written
    before stays. *)

(** The payload of a chunk, the content of a blob. *)
Abbreviation bytes := (list Byte.byte).

(** What the assembler holds for one upload key. *)
Record upload := mkUpload
  { received : gset nat;
    scratch : gmap nat bytes }.

(** The uploads by key, the blobs of the Blob Gateway, and the upload keys
    whose merge was triggered, the latest first. *)
Record assembler := mkAssembler
  { uploads : gmap string upload;
    gateway : gmap string bytes;
    merges : list string }.

(** What the storage does to the writes of one call. *)
Inductive io := io_ok | scratch_write_fails | merge_write_fails.

Inductive io_error := IOError.

Section Assembler.

Local Open Scope nat_scope.

(** The key under which the finished blob of an upload is stored. *)
Variable permanent_key : string -> string.

(** The indices [0 .. totalChunks-1]. *)
Definition all_indices (totalChunks : nat) : gset nat :=
  list_to_set (seq 0 totalChunks).

(** Reading scratch chunks in the order given, one after the other. *)
Fixpoint read_chunks (chunks : gmap nat bytes) (indices : list nat)
  : option bytes :=
  match indices with
  | [] => Some []
  | i :: rest =>
      match chunks !! i, read_chunks chunks rest with
      | Some c, Some b => Some (c ++ b)
      | _, _ => None
      end
  end.

Definition no_upload : upload := mkUpload ∅ ∅.

(** The merge: the blob is put under the permanent key, the scratch chunks of
    the upload are deleted, the merge is recorded. *)
Definition mergeChunks (uploadKey : string) (totalChunks : nat) (a : assembler)
  : option assembler :=
  let u := default no_upload (uploads a !! uploadKey) in
  match read_chunks (scratch u) (seq 0 totalChunks) with
  | Some blob =>
      Some (mkAssembler
              (<[uploadKey := mkUpload (received u) ∅]> (uploads a))
              (<[permanent_key uploadKey := blob]> (gateway a))
              (uploadKey :: merges a))
  | None => None
  end.

(** One chunk: [done] is [true] when this chunk completes the set. *)
Definition uploadChunk (fault : io) (uploadKey : string)
    (chunkIndex totalChunks : nat) (payload : bytes) (a : assembler)
  : (io_error + bool) * assembler :=
  match fault with
  | scratch_write_fails => (inl IOError, a)
  | _ =>
      let u := default no_upload (uploads a !! uploadKey) in
      let u' :=
        mkUpload ({[chunkIndex]} ∪ received u)
          (<[chunkIndex := payload]> (scratch u)) in
      let a' := mkAssembler (<[uploadKey := u']> (uploads a)) (gateway a) (merges a) in
      if bool_decide (received u' = all_indices totalChunks)
         && negb (bool_decide (received u = all_indices totalChunks))
      then
        match fault, mergeChunks uploadKey totalChunks a' with
        | io_ok, Some merged => (inr true, merged)
        | _, _ => (inl IOError, a')
        end
      else (inr false, a')
  end.

(** Feeding the chunks of one upload in the order given, chunk [i] with the
    payload [payload i], on a storage that does not fail. *)
Fixpoint feed (uploadKey : string) (totalChunks : nat) (payload : nat -> bytes)
    (order : list nat) (a : assembler) : option assembler :=
  match order with
  | [] => Some a
  | i :: rest =>
      match uploadChunk io_ok uploadKey i totalChunks (payload i) a with
      | (inr _, a') => feed uploadKey totalChunks payload rest a'
      | (inl _, _) => None
      end
  end.

End Assembler.

(** The state of the assembler after chunks with the indices [S] of one
    upload were fed to it from [a0]: the set is tracked; once it is complete
    the upload was merged once and its blob is the concatenation of the
    payloads in index order; until then nothing was merged and the scratch
    holds the payload of every index received. *)
Definition fed (permanent_key : string -> string) (uploadKey : string)
    (totalChunks : nat) (payload : nat -> bytes)
    (a0 : assembler) (S : gset nat) (a : assembler) : Prop :=
  let u := default no_upload (uploads a !! uploadKey) in
  received u = S
  /\ if bool_decide (S = all_indices totalChunks)
     then merges a = uploadKey :: merges a0
          /\ gateway a !! permanent_key uploadKey =
             Some (concat (map payload (seq 0 totalChunks)))
     else merges a = merges a0
          /\ gateway a = gateway a0
          /\ forall i, i ∈ S -> scratch u !! i = Some (payload i).

(** The upload of the first scenario of the design document: two chunks,
    "Hello " and "World". *)
Definition hello_world (i : nat) : bytes :=
  match i with
  | O => list_byte_of_string "Hello "
  | _ => list_byte_of_string "World"
  end.

Definition no_uploads : assembler := mkAssembler ∅ ∅ [].

(** ** Running statements *)

Lemma bind_run {A B} (m : M A) (k : A -> M B) w :
  bind m k w =
  match m w with
  | (inl e, w') => (inl e, w')
  | (inr a, w') => k a w'
  end.
Proof. reflexivity. Qed.

Lemma statement_accepted {A} (q : database -> exn + (A * database)) w :
  hd false (faults w) = false ->
  statement q w =
  match q (db w) with
  | inl e => (inl e, set_faults (tl (faults w)) w)
  | inr (a, d) => (inr a, set_db d (set_faults (tl (faults w)) w))
  end.
Proof.
  unfold statement. destruct (faults w) as [|[] fs]; simpl; intros H;
    try discriminate; reflexivity.
Qed.

Lemma statement_refused {A} (q : database -> exn + (A * database)) w :
  hd false (faults w) = true ->
  statement q w =
  (inl PrismaClientUnknownRequestError, set_faults (tl (faults w)) w).
Proof.
  unfold statement. destruct (faults w) as [|[] fs]; simpl; intros H;
    try discriminate; reflexivity.
Qed.

(** A statement that returns ran its query. *)
Lemma statement_inr {A} (q : database -> exn + (A * database)) w a w' :
  statement q w = (inr a, w') ->
  exists d, q (db w) = inr (a, d)
    /\ w' = set_db d (set_faults (tl (faults w)) w).
Proof.
  unfold statement. intros H.
  destruct (faults w) as [|[] fs]; try discriminate;
    destruct (q (db w)) as [e|[a' d]]; inversion H; subst; eauto.
Qed.

(** A statement that throws leaves the tables as they were. *)
Lemma statement_inl {A} (q : database -> exn + (A * database)) w e w' :
  statement q w = (inl e, w') ->
  w' = set_faults (tl (faults w)) w.
Proof.
  unfold statement. intros H.
  destruct (faults w) as [|[] fs];
    try (inversion H; subst; reflexivity);
    destruct (q (db w)) as [e'|[a' d]]; inversion H; subst; reflexivity.
Qed.

Lemma query_inr {A} (q : database -> A) w a w' :
  query q w = (inr a, w') ->
  a = q (db w) /\ w' = set_faults (tl (faults w)) w.
Proof.
  unfold query. intros H. apply statement_inr in H as (d & Hq & ->).
  inversion Hq; subst. destruct w; auto.
Qed.

Lemma query_accepted {A} (q : database -> A) w :
  hd false (faults w) = false ->
  query q w = (inr (q (db w)), set_faults (tl (faults w)) w).
Proof.
  intros H. unfold query. rewrite statement_accepted by assumption.
  destruct w; reflexivity.
Qed.

(** ** Lists, keys and the checks *)

Lemma mem_In x l : mem x l = true <-> In x l.
Proof.
  unfold mem. rewrite existsb_exists. split.
  - intros (y & Hy & E). apply Z.eqb_eq in E. subst. exact Hy.
  - intros H. exists x. split; [exact H|apply Z.eqb_refl].
Qed.

Lemma mem_false x l : mem x l = false <-> ~ In x l.
Proof.
  rewrite <- mem_In. destruct (mem x l); split; intros H; congruence.
Qed.

Lemma hasEvery_In column values :
  hasEvery column values = true <-> (forall v, In v values -> In v column).
Proof.
  unfold hasEvery. rewrite forallb_forall.
  split; intros H v Hv; apply mem_In; auto.
Qed.

Lemma equals_eq a b : equals a b = true <-> a = b.
Proof.
  revert b. induction a as [|x a IH]; intros [|y b]; simpl;
    try (split; intros; congruence).
  rewrite andb_true_iff, Z.eqb_eq, IH. split.
  - intros [-> ->]. reflexivity.
  - intros H. inversion H. auto.
Qed.

Lemma distinct_NoDup {A} (eqb : A -> A -> bool) (l : list A) :
  (forall x y, eqb x y = true <-> x = y) ->
  distinct eqb l = true -> List.NoDup l.
Proof.
  intros Heqb. induction l as [|x l IH]; simpl; intros H.
  - constructor.
  - apply andb_true_iff in H as [Hx Hl]. constructor; [|auto].
    intros Hin. apply negb_true_iff in Hx.
    assert (existsb (eqb x) l = true); [|congruence].
    apply existsb_exists. exists x. split; [exact Hin|]. apply Heqb. reflexivity.
Qed.

Lemma check_constraints_sound d : check_constraints d = true -> constraints d.
Proof.
  unfold check_constraints. rewrite !andb_true_iff.
  intros [[[H1 H2] H3] H4]. constructor.
  - apply (distinct_NoDup Z.eqb); [apply Z.eqb_eq|exact H1].
  - apply (distinct_NoDup String.eqb); [apply String.eqb_eq|exact H2].
  - apply (distinct_NoDup Z.eqb); [apply Z.eqb_eq|exact H3].
  - intros p Hp. apply mem_In. rewrite forallb_forall in H4. auto.
Qed.

Lemma check_materialized_sound d :
  check_materialized d = true -> materialized d.
Proof.
  unfold check_materialized, materialized. rewrite forallb_forall.
  intros H p Hp. specialize (H p Hp).
  destruct (file_path.path p) as [|x l] eqn:E; [left; reflexivity|right].
  apply existsb_exists in H as (q & Hq & Heq).
  exists q. split; [exact Hq|]. apply equals_eq. exact Heq.
Qed.

(** A key that is unique in a list names one row of it. *)
Lemma NoDup_map_eq {A B} (key : A -> B) (l : list A) x y :
  List.NoDup (map key l) -> In x l -> In y l -> key x = key y -> x = y.
Proof.
  induction l as [|a l IH]; simpl; [tauto|].
  intros Hnd Hx Hy E. inversion Hnd as [|? ? Hnotin Hnd']; subst.
  destruct Hx as [->|Hx], Hy as [->|Hy]; auto.
  - exfalso. apply Hnotin. rewrite E. apply in_map. exact Hy.
  - exfalso. apply Hnotin. rewrite <- E. apply in_map. exact Hx.
Qed.

Lemma NoDup_map_filter {A B} (key : A -> B) (sel : A -> bool) (l : list A) :
  List.NoDup (map key l) -> List.NoDup (map key (List.filter sel l)).
Proof.
  induction l as [|a l IH]; simpl; intros Hnd; [constructor|].
  inversion Hnd as [|? ? Hnotin Hnd']; subst.
  destruct (sel a); simpl; auto.
  constructor; auto. intros Hin. apply Hnotin.
  apply in_map_iff in Hin as (y & E & Hy). apply List.filter_In in Hy as [Hy _].
  rewrite <- E. apply in_map. exact Hy.
Qed.

Lemma NoDup_map_other {A B C} (k1 : A -> B) (k2 : A -> C) (l all : list A) :
  List.NoDup (map k1 l) -> (forall x, In x l -> In x all) ->
  List.NoDup (map k2 all) -> List.NoDup (map k2 l).
Proof.
  intros Hnd Hsub Hall. induction l as [|a l IH]; simpl; [constructor|].
  inversion Hnd as [|? ? Hnotin Hnd']; subst.
  constructor.
  - intros Hin. apply in_map_iff in Hin as (y & E & Hy).
    assert (y = a).
    { eapply (NoDup_map_eq k2 all); eauto; apply Hsub; simpl; auto. }
    subst y. apply Hnotin. apply in_map. exact Hy.
  - apply IH; [exact Hnd'|]. intros x Hx. apply Hsub. right. exact Hx.
Qed.

Lemma find_unique {A B} (key : A -> B) (eqb : B -> B -> bool) (l : list A) x :
  (forall a b, eqb a b = true <-> a = b) ->
  List.NoDup (map key l) -> In x l ->
  List.find (fun y => eqb (key y) (key x)) l = Some x.
Proof.
  intros Heqb Hnd Hx.
  destruct (List.find (fun y => eqb (key y) (key x)) l) as [y|] eqn:E.
  - apply find_some in E as [Hy E]. apply Heqb in E.
    f_equal. eapply NoDup_map_eq; eauto.
  - eapply find_none in E; [|exact Hx].
    assert (eqb (key x) (key x) = true) by (apply Heqb; reflexivity).
    congruence.
Qed.

Lemma file_path_of_Some d f p :
  file_path_of d f = Some p ->
  In p (file_paths d) /\ file_path.file_id p = file.id f.
Proof.
  unfold file_path_of. intros H. apply find_some in H as [H E].
  apply Z.eqb_eq in E. auto.
Qed.

Lemma file_of_Some d p f :
  file_of d p = Some f ->
  In f (files d) /\ file.id f = file_path.file_id p.
Proof.
  unfold file_of. intros H. apply find_some in H as [H E].
  apply Z.eqb_eq in E. auto.
Qed.

Lemma lookup_Some d fileKey f o :
  lookup d fileKey = Some (f, o) ->
  In f (files d) /\ file.file_key f = fileKey /\ o = file_path_of d f.
Proof.
  unfold lookup. destruct (List.find _ (files d)) as [g|] eqn:E; [|discriminate].
  intros H. inversion H; subst. apply find_some in E as [Hin E].
  apply String.eqb_eq in E. auto.
Qed.

(** ** The files a [hasEvery] query selects *)

Lemma files_hasEvery_In d values g :
  In g (files_hasEvery d values) ->
  In g (files d) /\
  exists p, In p (file_paths d) /\ file_path.file_id p = file.id g
    /\ hasEvery (file_path.path p) values = true.
Proof.
  unfold files_hasEvery, paths_hasEvery. rewrite in_flat_map.
  intros (p & Hp & Hg). apply List.filter_In in Hp as [Hp Hv].
  destruct (file_of d p) as [f|] eqn:E; simpl in Hg; [|tauto].
  destruct Hg as [->|[]]. apply file_of_Some in E as [Hin Hid].
  split; [exact Hin|]. exists p. auto.
Qed.

Lemma In_files_hasEvery d values g p :
  List.NoDup (map file.id (files d)) ->
  In g (files d) -> In p (file_paths d) ->
  file_path.file_id p = file.id g ->
  hasEvery (file_path.path p) values = true ->
  In g (files_hasEvery d values).
Proof.
  intros Hpk Hg Hp Hid Hv. unfold files_hasEvery, paths_hasEvery.
  apply in_flat_map. exists p. split.
  - apply List.filter_In. auto.
  - unfold file_of. rewrite Hid.
    rewrite (find_unique file.id Z.eqb (files d) g Z.eqb_eq Hpk Hg).
    left. reflexivity.
Qed.

Lemma files_hasEvery_ids_aux d (ps : list file_path.t) :
  let join := fun p => match file_of d p with Some f => [f] | None => [] end in
  (forall x, In x (map file.id (flat_map join ps)) ->
     In x (map file_path.file_id ps))
  /\ (List.NoDup (map file_path.file_id ps) ->
      List.NoDup (map file.id (flat_map join ps))).
Proof.
  intros join. induction ps as [|p ps [IH1 IH2]]; simpl.
  - split; [tauto|constructor].
  - unfold join at 1 3. destruct (file_of d p) as [f|] eqn:E; simpl.
    + apply file_of_Some in E as [_ E]. split.
      * intros x [Hx|Hx]; [left; congruence|right; auto].
      * intros Hnd. inversion Hnd as [|? ? Hnotin Hnd']; subst.
        constructor; auto. rewrite E. intros Hin. apply Hnotin. auto.
    + split; [intros x Hx; right; auto|].
      intros Hnd. inversion Hnd; subst. auto.
Qed.

Lemma files_hasEvery_NoDup d values :
  List.NoDup (map file_path.file_id (file_paths d)) ->
  List.NoDup (map file.id (files_hasEvery d values)).
Proof.
  intros Hnd. unfold files_hasEvery, paths_hasEvery.
  apply files_hasEvery_ids_aux. apply NoDup_map_filter. exact Hnd.
Qed.

(** ** [deleteFile], step by step *)

Lemma for_each_storage (l : list file.t) w :
  for_each (fun a => storageService_deleteFile (file.file_key a)) l w =
  (inr tt,
   mkWorld (db w) (blobs w ∖ list_to_set (map file.file_key l))
     (rev (map file.file_key l) ++ storage_calls w) (faults w)).
Proof.
  revert w. induction l as [|a l IH]; intros w.
  - simpl. unfold ret. destruct w as [d bl calls fs]. simpl.
    do 2 f_equal. set_solver.
  - cbn [for_each]. rewrite bind_run. unfold storageService_deleteFile at 1.
    rewrite IH. cbn. do 2 f_equal.
    + set_solver.
    + rewrite <- app_assoc. reflexivity.
Qed.

Lemma filter_twice {A} (s1 s2 : A -> bool) (l : list A) :
  List.filter (fun x => negb (s2 x)) (List.filter (fun x => negb (s1 x)) l) =
  List.filter (fun x => negb (s2 x || s1 x)) l.
Proof.
  induction l as [|a l IH]; simpl; [reflexivity|].
  destruct (s1 a) eqn:E1, (s2 a) eqn:E2; simpl; rewrite ?E2; simpl;
    rewrite IH; reflexivity.
Qed.

(** The rows a list of identifiers selects: as many as the identifiers, when
    each identifier is the key of a row. *)
Lemma length_filter_mem (l : list file.t) (ids : list Z) :
  List.NoDup (map file.id l) -> List.NoDup ids ->
  (forall i, In i ids -> In i (map file.id l)) ->
  length (List.filter (fun f => mem (file.id f) ids) l) = length ids.
Proof.
  intros Hl Hids Hsub.
  rewrite <- (length_map file.id).
  apply Nat.le_antisymm.
  - apply NoDup_incl_length; [apply NoDup_map_filter; exact Hl|].
    intros i Hi. apply in_map_iff in Hi as (f & <- & Hf).
    apply List.filter_In in Hf as [_ Hf]. apply mem_In. exact Hf.
  - apply NoDup_incl_length; [exact Hids|].
    intros i Hi. destruct (proj1 (in_map_iff _ _ _) (Hsub i Hi)) as (f & <- & Hf).
    apply in_map. apply List.filter_In. split; [exact Hf|]. apply mem_In. exact Hi.
Qed.

Section DeleteFile.

Variable special : string -> bool.

(** What a [deleteFile] that returns has done. *)
Lemma deleteFile_inr fileKey w g w' :
  List.NoDup (map file.id (files (db w))) ->
  deleteFile special fileKey w = (inr g, w') ->
  exists p,
    lookup (db w) fileKey = Some (g, Some p)
    /\ is_special_container special g p = false
    /\ ~ In (file.id g) (map file.id (descendantsOf (db w) g p))
    /\ db w' =
       delete_files (fun f => Z.eqb (file.id f) (file.id g))
         (delete_files
            (fun f => mem (file.id f) (map file.id (descendantsOf (db w) g p)))
            (db w))
    /\ blobs w' =
       blobs w ∖ list_to_set
         (map file.file_key (List.filter is_block (g :: descendantsOf (db w) g p)))
    /\ storage_calls w' =
       rev (map file.file_key
              (List.filter is_block (g :: descendantsOf (db w) g p)))
       ++ storage_calls w.
Proof.
  intros Hpk. unfold deleteFile. rewrite bind_run.
  destruct (file_findUniqueOrThrow fileKey w) as [[e|[f o]] w1] eqn:E1;
    [discriminate|].
  apply statement_inr in E1 as (d1 & Hq & ->).
  destruct (lookup (db w) fileKey) as [r|] eqn:Hl; [|discriminate].
  inversion Hq; subst r d1; clear Hq.
  destruct o as [p|]; [|discriminate].
  rewrite bind_run. unfold throw_if.
  destruct (is_special_container special f p) eqn:Hsp; [discriminate|].
  cbn [ret]. rewrite bind_run.
  set (w1 := set_db (db w) (set_faults (tl (faults w)) w)).
  set (w2 := snd ((if file_type_eqb (file.type f) block
                   then storageService_deleteFile (file.file_key f)
                   else ret tt) w1)).
  assert (Hw2 : (if file_type_eqb (file.type f) block
                 then storageService_deleteFile (file.file_key f)
                 else ret tt) w1 = (inr tt, w2)).
  { subst w2. destruct (file_type_eqb (file.type f) block); reflexivity. }
  rewrite Hw2. rewrite bind_run.
  destruct (file_path_findMany_file (file_path.path p ++ [file.id f]) w2)
    as [[e|D] w3] eqn:E3; [discriminate|].
  apply query_inr in E3 as [-> ->].
  rewrite bind_run, for_each_storage. rewrite bind_run.
  match goal with |- context [file_deleteMany ?ids ?w] =>
    destruct (file_deleteMany ids w) as [[e|n] w4] eqn:E4 end; [discriminate|].
  apply statement_inr in E4 as (d4 & Hq4 & ->). inversion Hq4; subst; clear Hq4.
  intros H. apply statement_inr in H as (d5 & Hq5 & ->).
  assert (Hdb2 : db w2 = db w).
  { subst w2 w1. destruct (file_type_eqb (file.type f) block); reflexivity. }
  cbn in Hq5. rewrite Hdb2 in Hq5.
  match type of Hq5 with context [List.find ?s ?l] =>
    destruct (List.find s l) as [f'|] eqn:Hfind end; [|discriminate].
  inversion Hq5; subst; clear Hq5.
  apply find_some in Hfind as [Hin Hid]. apply Z.eqb_eq in Hid.
  apply List.filter_In in Hin as [Hin Hsel].
  apply negb_true_iff, mem_false in Hsel.
  apply lookup_Some in Hl as (Hf & Hkey & Hp).
  assert (g = f) by (eapply NoDup_map_eq; eauto). subst g.
  exists p. unfold descendantsOf, is_block. repeat split; auto.
  - subst w2 w1. destruct w as [d bl calls fs].
    cbn [List.filter]. destruct (file_type_eqb (file.type f) block); cbn.
    + set_solver.
    + reflexivity.
  - subst w2 w1. destruct w as [d bl calls fs].
    cbn [List.filter]. destruct (file_type_eqb (file.type f) block); cbn.
    + rewrite <- app_assoc. reflexivity.
    + reflexivity.
Qed.

(** The rows a [deleteFile] that returns has removed: the file and its
    descendants, each once, and no other. *)
Lemma deleteFile_rows fileKey w g w' p :
  constraints (db w) ->
  deleteFile special fileKey w = (inr g, w') ->
  lookup (db w) fileKey = Some (g, Some p) ->
  let D := descendantsOf (db w) g p in
  List.NoDup (map file.id (g :: D))
  /\ (forall f, In f (g :: D) -> In f (files (db w)))
  /\ files (db w') =
     List.filter (fun f => negb (mem (file.id f) (map file.id (g :: D))))
       (files (db w)).
Proof.
  intros [Hpk Hkey Hfp Hfk] Hrun Hl D.
  apply deleteFile_inr in Hrun as (p' & Hl' & _ & Hself & Hdb & _);
    [|exact Hpk].
  rewrite Hl in Hl'. inversion Hl'; subst p'; clear Hl'. fold D in Hself, Hdb.
  apply lookup_Some in Hl as (Hg & _ & _).
  split; [|split].
  - cbn [map]. constructor; [exact Hself|].
    apply files_hasEvery_NoDup. exact Hfp.
  - intros f [<-|Hf]; [exact Hg|]. apply files_hasEvery_In in Hf. tauto.
  - rewrite Hdb. cbn [delete_files files]. rewrite filter_twice.
    apply List.filter_ext. intros f. cbn [map mem existsb].
    unfold mem. rewrite (Z.eqb_sym (file.id f) (file.id g)). reflexivity.
Qed.

End DeleteFile.

(** ** Materialized paths *)

Lemma path_prefix d :
  materialized d ->
  forall n p, (length (file_path.path p) <= n)%nat -> In p (file_paths d) ->
  forall a, In a (file_path.path p) ->
  exists q rest, In q (file_paths d) /\ file_path.file_id q = a
    /\ file_path.path p = file_path.path q ++ a :: rest.
Proof.
  intros Hm. induction n as [|n IH]; intros p Hlen Hp a Ha.
  - destruct (file_path.path p); simpl in *; [tauto|lia].
  - destruct (Hm p Hp) as [E|(q & Hq & E)].
    + rewrite E in Ha. destruct Ha.
    + rewrite E in Ha. apply in_app_or in Ha as [Ha|[<-|[]]].
      * assert (Hlq : (length (file_path.path q) <= n)%nat).
        { rewrite E, length_app in Hlen. simpl in Hlen. lia. }
        destruct (IH q Hlq Hq a Ha) as (q' & rest & Hq' & Hid & E').
        exists q', (rest ++ [file_path.file_id q]). repeat split; auto.
        rewrite E, E', <- app_assoc. reflexivity.
      * exists q, []. auto.
Qed.

(** No file is on its own path. *)
Lemma self_not_in_path d p :
  List.NoDup (map file_path.file_id (file_paths d)) -> materialized d ->
  In p (file_paths d) -> ~ In (file_path.file_id p) (file_path.path p).
Proof.
  intros Hu Hm Hp Hin.
  destruct (path_prefix d Hm _ p (Nat.le_refl _) Hp _ Hin)
    as (q & rest & Hq & Hid & E).
  assert (q = p) by (eapply NoDup_map_eq; eauto). subst q.
  apply (f_equal (@length Z)) in E. rewrite length_app in E. simpl in E. lia.
Qed.

(** The rows [hasEvery] selects for the path of a file and its identifier are
    the rows whose path goes through the file. *)
Lemma hasEvery_through d tp q :
  List.NoDup (map file_path.file_id (file_paths d)) -> materialized d ->
  In tp (file_paths d) -> In q (file_paths d) ->
  hasEvery (file_path.path q) (file_path.path tp ++ [file_path.file_id tp]) = true
  <-> exists rest,
      file_path.path q = file_path.path tp ++ file_path.file_id tp :: rest.
Proof.
  intros Hu Hm Htp Hq. rewrite hasEvery_In. split.
  - intros H.
    assert (Hin : In (file_path.file_id tp) (file_path.path q)).
    { apply H. apply in_or_app. right. left. reflexivity. }
    destruct (path_prefix d Hm _ q (Nat.le_refl _) Hq _ Hin)
      as (q' & rest & Hq' & Hid & E).
    assert (q' = tp) by (eapply NoDup_map_eq; eauto). subst q'.
    exists rest. exact E.
  - intros (rest & E) v Hv. rewrite E.
    apply in_app_or in Hv as [Hv|[<-|[]]]; apply in_or_app; simpl; auto.
Qed.

Lemma through_iff_In d tp q :
  List.NoDup (map file_path.file_id (file_paths d)) -> materialized d ->
  In tp (file_paths d) -> In q (file_paths d) ->
  In (file_path.file_id tp) (file_path.path q)
  <-> exists rest,
      file_path.path q = file_path.path tp ++ file_path.file_id tp :: rest.
Proof.
  intros Hu Hm Htp Hq. split.
  - intros Hin.
    destruct (path_prefix d Hm _ q (Nat.le_refl _) Hq _ Hin)
      as (q' & rest & Hq' & Hid & E).
    assert (q' = tp) by (eapply NoDup_map_eq; eauto). subst q'.
    exists rest. exact E.
  - intros (rest & E). rewrite E. apply in_or_app. simpl. auto.
Qed.

(** A file is not among its own descendants. *)
Lemma not_own_descendant d f p :
  constraints d -> materialized d ->
  In f (files d) -> file_path_of d f = Some p ->
  ~ In (file.id f) (map file.id (descendantsOf d f p)).
Proof.
  intros [Hpk Hkey Hu Hfk] Hm Hf Hp Hin.
  apply file_path_of_Some in Hp as [Hp Hid].
  apply in_map_iff in Hin as (g & E & Hg).
  apply files_hasEvery_In in Hg as (Hg & q & Hq & Hidq & Hv).
  assert (q = p).
  { apply (NoDup_map_eq file_path.file_id (file_paths d)); auto. congruence. }
  subst q. rewrite hasEvery_In in Hv.
  apply (self_not_in_path d p Hu Hm Hp). rewrite Hid.
  apply Hv. apply in_or_app. simpl. auto.
Qed.

(** With materialized paths, the descendants of a file are the files whose
    path goes through it. *)
Lemma descendantsOf_through d g p f q :
  constraints d -> materialized d ->
  file_path_of d g = Some p ->
  In f (files d) -> file_path_of d f = Some q ->
  In f (descendantsOf d g p) <-> In (file.id g) (file_path.path q).
Proof.
  intros [Hpk Hkey Hu Hfk] Hm Hp Hf Hq.
  apply file_path_of_Some in Hp as [Hp Hpid].
  apply file_path_of_Some in Hq as [Hq Hqid].
  unfold descendantsOf. split.
  - intros Hin. apply files_hasEvery_In in Hin as (_ & q' & Hq' & Hid & Hv).
    assert (q' = q).
    { apply (NoDup_map_eq file_path.file_id (file_paths d)); auto. congruence. }
    subst q'. rewrite hasEvery_In in Hv. apply Hv.
    apply in_or_app. simpl. auto.
  - intros Hin. apply (In_files_hasEvery d _ f q Hpk Hf Hq Hqid).
    rewrite <- Hpid. apply (hasEvery_through d p q Hu Hm Hp Hq).
    apply (through_iff_In d p q Hu Hm Hp Hq). rewrite Hpid. exact Hin.
Qed.

Lemma statement_no_fault {A} (q : database -> exn + (A * database)) w :
  faults w = [] ->
  statement q w =
  match q (db w) with
  | inl e => (inl e, w)
  | inr (a, d) => (inr a, set_db d w)
  end.
Proof.
  intros H. rewrite statement_accepted by (rewrite H; reflexivity).
  destruct w as [d bl calls fs]. simpl in H. subst fs. reflexivity.
Qed.

Section DeleteFileReturns.

Variable special : string -> bool.

(** On a sound store that refuses nothing, [deleteFile] returns the row of
    the file, unless the file has no path or is a special container. *)
Lemma deleteFile_returns fileKey w f p :
  constraints (db w) -> materialized (db w) -> faults w = [] ->
  lookup (db w) fileKey = Some (f, Some p) ->
  is_special_container special f p = false ->
  exists w', deleteFile special fileKey w = (inr f, w').
Proof.
  intros Hc Hm Hfs Hl Hsp.
  pose proof (lookup_Some _ _ _ _ Hl) as (Hf & _ & Hp). symmetry in Hp.
  pose proof (not_own_descendant _ _ _ Hc Hm Hf Hp) as Hself.
  destruct Hc as [Hpk _ _ _].
  unfold deleteFile. rewrite bind_run.
  unfold file_findUniqueOrThrow. rewrite statement_no_fault by exact Hfs.
  rewrite Hl. rewrite bind_run. unfold throw_if. rewrite Hsp.
  cbn [ret]. rewrite bind_run.
  set (w1 := set_db (db w) w).
  set (w2 := snd ((if file_type_eqb (file.type f) block
                   then storageService_deleteFile (file.file_key f)
                   else ret tt) w1)).
  assert (Hw2 : (if file_type_eqb (file.type f) block
                 then storageService_deleteFile (file.file_key f)
                 else ret tt) w1 = (inr tt, w2)).
  { subst w2. destruct (file_type_eqb (file.type f) block); reflexivity. }
  assert (Hdb2 : db w2 = db w /\ faults w2 = []).
  { subst w2 w1. destruct (file_type_eqb (file.type f) block); simpl; auto. }
  destruct Hdb2 as [Hdb2 Hfs2].
  rewrite Hw2, bind_run. unfold file_path_findMany_file, query.
  rewrite statement_no_fault by exact Hfs2.
  rewrite bind_run, for_each_storage, bind_run.
  unfold file_deleteMany. rewrite statement_no_fault by exact Hfs2.
  unfold file_delete. rewrite statement_no_fault by exact Hfs2.
  cbn [db set_db delete_files files]. rewrite Hdb2.
  fold (descendantsOf (db w) f p).
  assert (Hfind :
    List.find (fun f0 => Z.eqb (file.id f0) (file.id f))
      (List.filter
         (fun f0 => negb (mem (file.id f0)
                            (map file.id (descendantsOf (db w) f p))))
         (files (db w))) = Some f).
  { apply (find_unique file.id Z.eqb _ f Z.eqb_eq).
    - apply NoDup_map_filter. exact Hpk.
    - apply List.filter_In. split; [exact Hf|].
      apply negb_true_iff, mem_false. exact Hself. }
  rewrite Hfind. eexists. reflexivity.
Qed.

End DeleteFileReturns.

(** ** [moveToTrash], step by step *)

Lemma transaction_inl {A} (ms : list (M A)) w e w' :
  transaction ms w = (inl e, w') -> db w' = db w.
Proof.
  unfold transaction. destruct (sequence ms w) as [[e'|r] w1];
    intros H; inversion H; subst; reflexivity.
Qed.

Lemma transaction_inr {A} (ms : list (M A)) w r w' :
  transaction ms w = (inr r, w') -> sequence ms w = (inr r, w').
Proof.
  unfold transaction. destruct (sequence ms w) as [[e'|r'] w1];
    intros H; inversion H; subst; reflexivity.
Qed.

(** A sequence of updates that goes through has set the paths in order. *)
Lemma sequence_updates {A} (i : A -> Z) (np : A -> list Z) (l : list A) w r w' :
  sequence (map (fun a => file_path_update (i a) (np a)) l) w = (inr r, w') ->
  files (db w') = files (db w)
  /\ temp_files (db w') = temp_files (db w)
  /\ file_paths (db w') =
     fold_left (fun ps a => set_path (i a) (np a) ps) l (file_paths (db w))
  /\ blobs w' = blobs w
  /\ storage_calls w' = storage_calls w.
Proof.
  revert w r w'. induction l as [|a l IH]; intros w r w'; cbn [map sequence].
  - unfold ret. intros H. inversion H; subst. auto 6.
  - rewrite bind_run.
    destruct (file_path_update (i a) (np a) w) as [[e|x] w1] eqn:E1;
      [discriminate|].
    apply statement_inr in E1 as (d1 & Hq & ->).
    destruct (List.find _ (file_paths (db w))); [|discriminate].
    inversion Hq; subst; clear Hq.
    rewrite bind_run.
    match goal with |- context [sequence ?ms ?w1] =>
      destruct (sequence ms w1) as [[e|r1] w2] eqn:E2 end; [discriminate|].
    apply IH in E2 as (H1 & H2 & H3 & H4 & H5). unfold ret.
    intros H. inversion H; subst.
    rewrite H1, H2, H3, H4, H5. auto 6.
Qed.

(** Updates of rows with distinct identifiers do not depend on their
    order: every row takes the path given for its identifier, if any. *)
Lemma fold_set_path (np : file_path.t -> list Z) (l ps : list file_path.t) :
  List.NoDup (map file_path.file_id l) ->
  fold_left (fun ps a => set_path (file_path.file_id a) (np a) ps) l ps =
  map (fun p =>
         match List.find
                 (fun a => Z.eqb (file_path.file_id a) (file_path.file_id p)) l
         with
         | Some a => file_path.mk (file_path.file_id p) (np a)
         | None => p
         end) ps.
Proof.
  revert ps. induction l as [|a l IH]; intros ps Hnd; cbn [fold_left].
  - cbn [List.find]. symmetry. apply map_id.
  - inversion Hnd as [|? ? Hnotin Hnd']; subst.
    rewrite IH by exact Hnd'. unfold set_path. rewrite map_map.
    apply map_ext. intros p. cbn [List.find].
    rewrite (Z.eqb_sym (file_path.file_id a) (file_path.file_id p)).
    destruct (Z.eqb (file_path.file_id p) (file_path.file_id a)) eqn:E.
    + apply Z.eqb_eq in E. cbn [file_path.file_id].
      destruct (List.find _ l) as [a'|] eqn:Hfind.
      * exfalso. apply find_some in Hfind as [Hin Ha']. apply Z.eqb_eq in Ha'.
        apply Hnotin. rewrite <- Ha'. apply in_map. exact Hin.
      * rewrite E. reflexivity.
    + reflexivity.
Qed.

Lemma path_of_map (g : file_path.t -> file_path.t) d d' i :
  (forall p, file_path.file_id (g p) = file_path.file_id p) ->
  file_paths d' = map g (file_paths d) ->
  path_of d' i =
  match List.find (fun p => Z.eqb (file_path.file_id p) i) (file_paths d) with
  | Some p => Some (file_path.path (g p))
  | None => None
  end.
Proof.
  intros Hg E. unfold path_of. rewrite E. clear E.
  induction (file_paths d) as [|p ps IH]; simpl; [reflexivity|].
  rewrite Hg. destruct (Z.eqb (file_path.file_id p) i); auto.
Qed.

(** [slice] from the length of a prefix drops the prefix. *)
Lemma slice_prefix (a rest : list Z) x :
  slice (a ++ rest) (len (a ++ [x]) - 1) = rest.
Proof.
  unfold slice, len. rewrite !length_app. cbn [length].
  replace (Z.of_nat (length a + 1) - 1) with (Z.of_nat (length a)) by lia.
  destruct (Z.ltb_spec (Z.of_nat (length a)) 0); [lia|].
  rewrite Z.min_l by lia. rewrite Nat2Z.id.
  rewrite skipn_app, skipn_all, Nat.sub_diag. reflexivity.
Qed.

Section MoveToTrash.

Variable special : string -> bool.

(** What a [moveToTrash] that returns has found and done. *)
Lemma moveToTrash_inr memberId rootFileId targetFileKey w b w' :
  moveToTrash special memberId rootFileId targetFileKey w = (inr b, w') ->
  exists t trashp target tp,
    trash_containers (db w) memberId rootFileId = [t]
    /\ file_path_of (db w) t = Some trashp
    /\ lookup (db w) targetFileKey = Some (target, Some tp)
    /\ is_special_container special target tp = false
    /\ files (db w') = files (db w)
    /\ temp_files (db w') = temp_files (db w)
    /\ file_paths (db w') =
       fold_left
         (fun ps a =>
            set_path (file_path.file_id a) (moved_path trashp t tp target a) ps)
         (paths_hasEvery (db w) (file_path.path tp ++ [file.id target]) ++ [tp])
         (file_paths (db w))
    /\ blobs w' = blobs w
    /\ storage_calls w' = storage_calls w.
Proof.
  unfold moveToTrash. rewrite bind_run.
  destruct (file_findMany_trash memberId rootFileId w) as [[e|trash] w1] eqn:E1;
    [discriminate|].
  apply query_inr in E1 as [-> ->].
  destruct (trash_containers (db w) memberId rootFileId) as [|t ts] eqn:Ht;
    [discriminate|].
  cbn [map]. destruct (file_path_of (db w) t) as [trashp|] eqn:Htp;
    [|discriminate].
  rewrite bind_run. unfold throw_if.
  destruct (1 <? len _) eqn:Hlen; [discriminate|].
  assert (ts = []).
  { apply Z.ltb_ge in Hlen. unfold len in Hlen. cbn [length] in Hlen.
    rewrite length_map in Hlen. destruct ts; [reflexivity|simpl in Hlen; lia]. }
  subst ts. clear Hlen. cbn [ret]. rewrite bind_run.
  set (w1 := set_faults (tl (faults w)) w).
  destruct (file_findUniqueOrThrow targetFileKey w1) as [[e|[target o]] w2] eqn:E2;
    [discriminate|].
  apply statement_inr in E2 as (d2 & Hq & ->).
  replace (db w1) with (db w) in Hq by reflexivity.
  destruct (lookup (db w) targetFileKey) as [r|] eqn:Hl; [|discriminate].
  inversion Hq; subst r d2; clear Hq.
  destruct o as [tp|]; [|discriminate].
  rewrite bind_run.
  destruct (is_special_container special target tp) eqn:Hsp; [discriminate|].
  cbn [ret]. rewrite bind_run.
  set (w2 := set_db (db w) (set_faults (tl (faults w1)) w1)).
  destruct (file_path_findMany (file_path.path tp ++ [file.id target]) w2)
    as [[e|desc] w3] eqn:E3; [discriminate|].
  apply query_inr in E3 as [-> ->].
  replace (db w2) with (db w) by reflexivity.
  set (w3 := set_faults (tl (faults w2)) w2).
  rewrite bind_run.
  match goal with |- context [transaction ?ms ?w] =>
    destruct (transaction ms w) as [[e|r] w4] eqn:E4 end; [discriminate|].
  unfold ret. intros H. inversion H; subst; clear H.
  apply transaction_inr in E4.
  apply (sequence_updates file_path.file_id
           (moved_path trashp t tp target)) in E4 as (H1 & H2 & H3 & H4 & H5).
  exists t, trashp, target, tp. repeat split; auto.
Qed.

(** A [moveToTrash] that throws has changed nothing. *)
Lemma moveToTrash_inl memberId rootFileId targetFileKey w e w' :
  moveToTrash special memberId rootFileId targetFileKey w = (inl e, w') ->
  db w' = db w.
Proof.
  unfold moveToTrash. rewrite bind_run.
  destruct (file_findMany_trash memberId rootFileId w) as [[e1|trash] w1] eqn:E1.
  { apply statement_inl in E1 as ->. intros H. inversion H; subst. reflexivity. }
  apply query_inr in E1 as [-> ->].
  set (w1 := set_faults (tl (faults w)) w).
  destruct (trash_containers (db w) memberId rootFileId) as [|t ts];
    cbn [map].
  { unfold throw. intros H. inversion H; subst. reflexivity. }
  destruct (file_path_of (db w) t) as [trashp|].
  2:{ unfold throw. intros H. inversion H; subst. reflexivity. }
  rewrite bind_run. unfold throw_if.
  destruct (1 <? len _).
  { unfold throw. intros H. inversion H; subst. reflexivity. }
  cbn [ret]. rewrite bind_run.
  destruct (file_findUniqueOrThrow targetFileKey w1) as [[e2|[target o]] w2] eqn:E2.
  { apply statement_inl in E2 as ->. intros H. inversion H; subst. reflexivity. }
  apply statement_inr in E2 as (d2 & Hq & ->).
  replace (db w1) with (db w) in Hq by reflexivity.
  destruct (lookup (db w) targetFileKey) as [r|]; [|discriminate].
  inversion Hq; subst r d2; clear Hq.
  destruct o as [tp|].
  2:{ unfold throw. intros H. inversion H; subst. reflexivity. }
  rewrite bind_run.
  destruct (is_special_container special target tp).
  { unfold throw. intros H. inversion H; subst. reflexivity. }
  cbn [ret]. rewrite bind_run.
  set (w2 := set_db (db w) (set_faults (tl (faults w1)) w1)).
  destruct (file_path_findMany (file_path.path tp ++ [file.id target]) w2)
    as [[e3|desc] w3] eqn:E3.
  { apply statement_inl in E3 as ->. intros H. inversion H; subst. reflexivity. }
  apply query_inr in E3 as [-> ->].
  rewrite bind_run.
  match goal with |- context [transaction ?ms ?w] =>
    destruct (transaction ms w) as [[e4|r] w4] eqn:E4 end.
  - apply transaction_inl in E4. intros H. inversion H; subst. exact E4.
  - unfold ret. discriminate.
Qed.

End MoveToTrash.

Section ErrorPaths.

Variable special : string -> bool.

Lemma trash_containers_file_path d memberId rootFileId f :
  In f (trash_containers d memberId rootFileId) ->
  exists p, file_path_of d f = Some p
    /\ equals (file_path.path p) [rootFileId] = true.
Proof.
  unfold trash_containers. rewrite List.filter_In. intros [_ H].
  destruct (file_path_of d f) as [p|].
  - exists p. split; [reflexivity|].
    apply andb_true_iff in H as [_ H]. exact H.
  - rewrite andb_false_r in H. discriminate.
Qed.

(** C10: [deleteFile] on a file row that exists but has no [file_path] row
    throws InternalServerErrorException ('File path not found'), an error of
    the internal class and not a not-found error, and it does so before any
    blob or any row is deleted: the tables, the blobs and the calls made to
    the storage are what they were. *)
Theorem deleteFile_without_file_path fileKey w f :
  hd false (faults w) = false ->
  lookup (db w) fileKey = Some (f, None) ->
  let r := deleteFile special fileKey w in
  fst r = inl (InternalServerErrorException "File path not found")
  /\ (forall m, fst r <> inl (NotFoundException m))
  /\ fst r <> inl P2025
  /\ db (snd r) = db w
  /\ blobs (snd r) = blobs w
  /\ storage_calls (snd r) = storage_calls w.
Proof.
  intros Hf Hl. unfold deleteFile. rewrite bind_run.
  unfold file_findUniqueOrThrow. rewrite statement_accepted by exact Hf.
  rewrite Hl. simpl. repeat split; discriminate.
Qed.

(** C2, as the code has it: when the store answers the query for the trash,
    [moveToTrash] throws NotFoundException ('Trash not found') when the member
    has no trash container and InternalServerErrorException ('Multiple trash
    found') when the member has more than one, and in both cases no path (no
    table at all) is changed. *)
Theorem moveToTrash_trash_count memberId rootFileId targetFileKey w :
  hd false (faults w) = false ->
  let n := length (trash_containers (db w) memberId rootFileId) in
  let r := moveToTrash special memberId rootFileId targetFileKey w in
  (n = 0%nat -> fst r = inl (NotFoundException "Trash not found"))
  /\ ((1 < n)%nat ->
      fst r = inl (InternalServerErrorException "Multiple trash found"))
  /\ (n <> 1%nat -> db (snd r) = db w).
Proof.
  intros Hf n r. subst n r. unfold moveToTrash. rewrite bind_run.
  unfold file_findMany_trash. rewrite query_accepted by exact Hf.
  destruct (trash_containers (db w) memberId rootFileId) as [|t [|t' ts]] eqn:Ht.
  - simpl. repeat split; intros; lia.
  - simpl. repeat split; intros; lia.
  - assert (Hin : In t (trash_containers (db w) memberId rootFileId))
      by (rewrite Ht; left; reflexivity).
    apply trash_containers_file_path in Hin as (p & Hp & _).
    cbn [map]. rewrite Hp. rewrite bind_run.
    replace (1 <? len _) with true.
    2:{ symmetry. apply Z.ltb_lt. unfold len. cbn [length]. lia. }
    simpl. repeat split; intros; first [reflexivity | discriminate].
Qed.

(** C8, as the code has it: when the store answers, [deleteTemporaryFile]
    deletes the [temp_file] row with the identifier and returns it (it throws
    P2025 when there is none), leaving the other rows, the files, the paths
    and the storage as they were; a second call for the same identifier
    throws P2025 and changes nothing. *)
Theorem deleteTemporaryFile_then_again fileId w :
  hd false (faults w) = false ->
  hd false (tl (faults w)) = false ->
  let r1 := deleteTemporaryFile fileId w in
  let r2 := deleteTemporaryFile fileId (snd r1) in
  match List.find (fun t => Z.eqb (temp_file.id t) fileId) (temp_files (db w)) with
  | Some t => fst r1 = inr t
  | None => fst r1 = inl P2025
  end
  /\ temp_files (db (snd r1)) =
     List.filter (fun t => negb (Z.eqb (temp_file.id t) fileId))
       (temp_files (db w))
  /\ files (db (snd r1)) = files (db w)
  /\ file_paths (db (snd r1)) = file_paths (db w)
  /\ blobs (snd r1) = blobs w
  /\ storage_calls (snd r1) = storage_calls w
  /\ fst r2 = inl P2025
  /\ db (snd r2) = db (snd r1)
  /\ blobs (snd r2) = blobs w
  /\ storage_calls (snd r2) = storage_calls w.
Proof.
  intros Hf1 Hf2 r1 r2.
  assert (Hnone : forall l : list temp_file.t,
    List.find (fun t => Z.eqb (temp_file.id t) fileId)
      (List.filter (fun t => negb (Z.eqb (temp_file.id t) fileId)) l) = None).
  { induction l as [|t l IH]; simpl; [reflexivity|].
    destruct (Z.eqb (temp_file.id t) fileId) eqn:E; simpl; [exact IH|].
    rewrite E. exact IH. }
  assert (Hid : forall l : list temp_file.t,
    List.find (fun t => Z.eqb (temp_file.id t) fileId) l = None ->
    List.filter (fun t => negb (Z.eqb (temp_file.id t) fileId)) l = l).
  { induction l as [|t l IH]; simpl; [reflexivity|].
    destruct (Z.eqb (temp_file.id t) fileId) eqn:E; simpl; [discriminate|].
    intros H. f_equal. auto. }
  subst r1 r2. unfold deleteTemporaryFile, temp_file_delete.
  rewrite (statement_accepted _ w) by exact Hf1.
  destruct (List.find _ (temp_files (db w))) as [t|] eqn:Hfind.
  - rewrite statement_accepted by exact Hf2. cbn.
    rewrite Hnone. cbn. repeat split; reflexivity.
  - rewrite statement_accepted by exact Hf2. cbn.
    rewrite Hfind. cbn. rewrite Hid by exact Hfind. repeat split; reflexivity.
Qed.

End ErrorPaths.

(** ** What every run keeps *)

Section Preserves.

Variable R : world -> world -> Prop.
Hypothesis R_refl : forall w, R w w.
Hypothesis R_trans : forall w1 w2 w3, R w1 w2 -> R w2 w3 -> R w1 w3.

Lemma preserves_ret {A} (a : A) : preserves R (ret a).
Proof. intros w. apply R_refl. Qed.

Lemma preserves_throw {A} (e : exn) : preserves R (@throw A e).
Proof. intros w. apply R_refl. Qed.

Lemma preserves_throw_if c e : preserves R (throw_if c e).
Proof. destruct c; [apply preserves_throw|apply preserves_ret]. Qed.

Lemma preserves_bind {A B} (m : M A) (k : A -> M B) :
  preserves R m -> (forall a, preserves R (k a)) -> preserves R (bind m k).
Proof.
  intros Hm Hk w. rewrite bind_run. specialize (Hm w).
  destruct (m w) as [[e|a] w1]; simpl in *; [exact Hm|].
  eapply R_trans; [exact Hm|apply Hk].
Qed.

Lemma preserves_statement {A} (q : database -> exn + (A * database)) :
  (forall w fs, R w (set_faults fs w)) ->
  (forall w fs a d, q (db w) = inr (a, d) -> R w (set_db d (set_faults fs w))) ->
  preserves R (statement q).
Proof.
  intros Hfs Hq w. unfold statement.
  destruct (faults w) as [|[] fs]; simpl; auto;
    destruct (q (db w)) as [e|[a d]] eqn:E; simpl; eauto.
Qed.

Lemma preserves_query {A} (q : database -> A) :
  (forall w fs, R w (set_faults fs w)) -> preserves R (query q).
Proof.
  intros Hfs. apply preserves_statement; [exact Hfs|].
  intros w fs a d H. inversion H; subst.
  replace (set_db (db w) (set_faults fs w)) with (set_faults fs w)
    by (destruct w; reflexivity).
  apply Hfs.
Qed.

Lemma preserves_for_each {A} (f : A -> M unit) (l : list A) :
  (forall a, preserves R (f a)) -> preserves R (for_each f l).
Proof.
  intros Hf. induction l as [|a l IH]; cbn [for_each].
  - apply preserves_ret.
  - apply preserves_bind; auto.
Qed.

Lemma preserves_sequence {A} (ms : list (M A)) :
  (forall m, In m ms -> preserves R m) -> preserves R (sequence ms).
Proof.
  induction ms as [|m ms IH]; intros H; cbn [sequence].
  - apply preserves_ret.
  - apply preserves_bind; [apply H; left; reflexivity|].
    intros a. apply preserves_bind; [apply IH; intros; apply H; right; auto|].
    intros r. apply preserves_ret.
Qed.

End Preserves.

Lemma shrinks_refl w : shrinks w w.
Proof.
  split; [auto|]. split; [auto|]. exists []. split; [reflexivity|].
  simpl. set_solver.
Qed.

Lemma shrinks_trans w1 w2 w3 : shrinks w1 w2 -> shrinks w2 w3 -> shrinks w1 w3.
Proof.
  intros (Hc1 & Hf1 & c1 & Hs1 & Hb1) (Hc2 & Hf2 & c2 & Hs2 & Hb2).
  split; [auto|]. split; [auto|]. exists (c2 ++ c1). split.
  - rewrite Hs2, Hs1, app_assoc. reflexivity.
  - rewrite Hb2, Hb1, list_to_set_app_L. set_solver.
Qed.

Lemma keeps_refl w : keeps w w.
Proof. split; [auto|]. repeat split. Qed.

Lemma keeps_trans w1 w2 w3 : keeps w1 w2 -> keeps w2 w3 -> keeps w1 w3.
Proof.
  intros (Hc1 & Hf1 & Hb1 & Hs1) (Hc2 & Hf2 & Hb2 & Hs2).
  split; [auto|]. repeat split; congruence.
Qed.

Lemma keeps_shrinks w w' : keeps w w' -> shrinks w w'.
Proof.
  intros (Hc & Hf & Hb & Hs). split; [exact Hc|]. split.
  - rewrite Hf. auto.
  - exists []. split; [exact Hs|]. rewrite Hb. simpl. set_solver.
Qed.

Lemma keeps_set_faults w fs : keeps w (set_faults fs w).
Proof. split; [auto|]. repeat split. Qed.

(** Deleting files keeps the constraints: the rows that referred to a
    deleted file went with it. *)
Lemma constraints_delete_files sel d :
  constraints d -> constraints (delete_files sel d).
Proof.
  intros [Hpk Hkey Hu Hfk]. constructor; cbn [delete_files files file_paths].
  - apply NoDup_map_filter. exact Hpk.
  - apply NoDup_map_filter. exact Hkey.
  - apply NoDup_map_filter. exact Hu.
  - intros p Hp. apply List.filter_In in Hp as [Hp Hgone].
    apply negb_true_iff, mem_false in Hgone.
    specialize (Hfk p Hp). apply in_map_iff in Hfk as (f & E & Hf).
    rewrite <- E. apply in_map. apply List.filter_In. split; [exact Hf|].
    destruct (sel f) eqn:Hsel; [|reflexivity].
    exfalso. apply Hgone. rewrite <- E. apply in_map.
    apply List.filter_In. auto.
Qed.

Lemma shrinks_delete_files sel w fs :
  shrinks w (set_db (delete_files sel (db w)) (set_faults fs w)).
Proof.
  split; [|split].
  - intros Hc. apply constraints_delete_files. exact Hc.
  - cbn. intros f Hf. apply List.filter_In in Hf. tauto.
  - exists []. split; [reflexivity|]. cbn. set_solver.
Qed.

Lemma set_path_file_id i np ps :
  map file_path.file_id (set_path i np ps) = map file_path.file_id ps.
Proof.
  unfold set_path. rewrite map_map. apply map_ext_in. intros p _.
  destruct (Z.eqb (file_path.file_id p) i) eqn:E; [|reflexivity].
  apply Z.eqb_eq in E. simpl. congruence.
Qed.

Lemma keeps_set_path i np w fs :
  keeps w
    (set_db (mkDb (files (db w)) (set_path i np (file_paths (db w)))
               (temp_files (db w)))
       (set_faults fs w)).
Proof.
  split; [|repeat split].
  intros [Hpk Hkey Hu Hfk]. constructor; cbn.
  - exact Hpk.
  - exact Hkey.
  - rewrite set_path_file_id. exact Hu.
  - intros p Hp. apply (in_map file_path.file_id) in Hp.
    rewrite set_path_file_id in Hp. apply in_map_iff in Hp as (p' & E & Hp').
    rewrite <- E. apply Hfk. exact Hp'.
Qed.

Lemma keeps_temp_files ts w fs :
  keeps w (set_db (mkDb (files (db w)) (file_paths (db w)) ts) (set_faults fs w)).
Proof.
  split; [|repeat split].
  intros [Hpk Hkey Hu Hfk]. constructor; cbn; auto.
Qed.

Section ServiceKeeps.

Variable special : string -> bool.

Lemma shrinks_set_faults w fs : shrinks w (set_faults fs w).
Proof. apply keeps_shrinks, keeps_set_faults. Qed.

Lemma shrinks_read_only w fs : shrinks w (set_db (db w) (set_faults fs w)).
Proof.
  replace (set_db (db w) (set_faults fs w)) with (set_faults fs w)
    by (destruct w; reflexivity).
  apply shrinks_set_faults.
Qed.

Lemma keeps_read_only w fs : keeps w (set_db (db w) (set_faults fs w)).
Proof.
  replace (set_db (db w) (set_faults fs w)) with (set_faults fs w)
    by (destruct w; reflexivity).
  apply keeps_set_faults.
Qed.

Lemma storageService_deleteFile_shrinks key :
  preserves shrinks (storageService_deleteFile key).
Proof.
  intros w. split; [auto|]. split; [auto|]. exists [key].
  split; [reflexivity|]. cbn. set_solver.
Qed.

Lemma file_findUniqueOrThrow_shrinks fileKey :
  preserves shrinks (file_findUniqueOrThrow fileKey).
Proof.
  apply preserves_statement; [exact shrinks_set_faults|].
  intros w fs a d H. destruct (lookup (db w) fileKey); inversion H; subst.
  apply shrinks_read_only.
Qed.

Lemma file_findUniqueOrThrow_keeps fileKey :
  preserves keeps (file_findUniqueOrThrow fileKey).
Proof.
  apply preserves_statement; [exact keeps_set_faults|].
  intros w fs a d H. destruct (lookup (db w) fileKey); inversion H; subst.
  apply keeps_read_only.
Qed.

(** Whatever its outcome, [deleteFile] keeps the constraints, adds no row, and
    removes the blobs it called the storage for. *)
Lemma deleteFile_shrinks fileKey : preserves shrinks (deleteFile special fileKey).
Proof.
  pose proof shrinks_refl as Hr. pose proof shrinks_trans as Ht.
  unfold deleteFile.
  apply preserves_bind; [exact Ht|apply file_findUniqueOrThrow_shrinks|].
  intros [f [p|]]; [|apply preserves_throw; exact Hr].
  apply preserves_bind; [exact Ht|apply preserves_throw_if; exact Hr|].
  intros _. apply preserves_bind; [exact Ht| |].
  { destruct (file_type_eqb (file.type f) block);
      [apply storageService_deleteFile_shrinks|apply preserves_ret; exact Hr]. }
  intros _. apply preserves_bind; [exact Ht| |].
  { apply preserves_query. exact shrinks_set_faults. }
  intros ancestors. apply preserves_bind; [exact Ht| |].
  { apply preserves_for_each; [exact Hr|exact Ht|].
    intros a. apply storageService_deleteFile_shrinks. }
  intros _. apply preserves_bind; [exact Ht| |].
  { apply preserves_statement; [exact shrinks_set_faults|].
    intros w fs a d H. inversion H; subst. apply shrinks_delete_files. }
  intros _. apply preserves_statement; [exact shrinks_set_faults|].
  intros w fs a d H. cbv zeta in H.
  destruct (List.find _ (files (db w))); inversion H; subst.
  apply shrinks_delete_files.
Qed.

(** Whatever its outcome, [moveToTrash] keeps the constraints, the files and
    the storage. *)
Lemma moveToTrash_keeps memberId rootFileId targetFileKey :
  preserves keeps (moveToTrash special memberId rootFileId targetFileKey).
Proof.
  pose proof keeps_refl as Hr. pose proof keeps_trans as Ht.
  unfold moveToTrash.
  apply preserves_bind; [exact Ht| |].
  { apply preserves_query. exact keeps_set_faults. }
  intros [|[i [trashp|]] trash]; try (apply preserves_throw; exact Hr).
  apply preserves_bind; [exact Ht|apply preserves_throw_if; exact Hr|].
  intros _. apply preserves_bind; [exact Ht|apply file_findUniqueOrThrow_keeps|].
  intros [target [tp|]]; [|apply preserves_throw; exact Hr].
  apply preserves_bind; [exact Ht|apply preserves_throw_if; exact Hr|].
  intros _. apply preserves_bind; [exact Ht| |].
  { apply preserves_query. exact keeps_set_faults. }
  intros targetAncestors. apply preserves_bind; [exact Ht| |].
  2:{ intros _. apply preserves_ret. exact Hr. }
  intros w. unfold transaction.
  match goal with |- context [sequence ?ms w] =>
    assert (Hseq : keeps w (snd (sequence ms w)));
    [|destruct (sequence ms w) as [[e|r] w1]] end.
  - apply preserves_sequence; [exact Hr|exact Ht|].
    intros m Hm. apply in_map_iff in Hm as (a & <- & _).
    apply preserves_statement; [exact keeps_set_faults|].
    intros w2 fs x d H.
    destruct (List.find _ (file_paths (db w2))); inversion H; subst.
    apply keeps_set_path.
  - simpl in *. destruct Hseq as (Hc & Hf & Hb & Hs).
    split; [auto|]. repeat split; auto.
  - exact Hseq.
Qed.

(** Whatever its outcome, [deleteTemporaryFile] keeps the constraints, the
    files and the storage. *)
Lemma deleteTemporaryFile_keeps fileId :
  preserves keeps (deleteTemporaryFile fileId).
Proof.
  unfold deleteTemporaryFile, temp_file_delete.
  apply preserves_statement; [exact keeps_set_faults|].
  intros w fs a d H. cbv zeta in H.
  destruct (List.find _ (temp_files (db w))); inversion H; subst.
  apply keeps_temp_files.
Qed.

Lemma blobs_present_keeps w w' : keeps w w' -> blobs_present w -> blobs_present w'.
Proof.
  intros (_ & Hf & Hb & _) H f Hin Hty. rewrite Hb. apply H; [|exact Hty].
  rewrite <- Hf. exact Hin.
Qed.

Lemma blobs_present_shrinks w w' :
  shrinks w w' -> storage_calls w' = storage_calls w ->
  blobs_present w -> blobs_present w'.
Proof.
  intros (_ & Hf & calls & Hs & Hb) Hsame H f Hin Hty.
  assert (calls = []).
  { rewrite Hs in Hsame. apply (f_equal (@length string)) in Hsame.
    rewrite length_app in Hsame. destruct calls; [reflexivity|simpl in Hsame; lia]. }
  subst calls. rewrite Hb. simpl.
  assert (file.file_key f ∈ blobs w) by (apply H; auto). set_solver.
Qed.

(** A [deleteFile] that returns leaves no row whose blob it deleted. *)
Lemma blobs_present_deleteFile fileKey w g w' :
  constraints (db w) -> blobs_present w ->
  deleteFile special fileKey w = (inr g, w') ->
  blobs_present w'.
Proof.
  intros Hc H Hrun. pose proof Hc as [Hpk Hkey Hu Hfk].
  pose proof Hrun as Hrun'.
  apply deleteFile_inr in Hrun' as (p & Hl & _ & _ & _ & Hb & _); [|exact Hpk].
  destruct (deleteFile_rows special fileKey w g w' p Hc Hrun Hl)
    as (_ & Hall & Hfiles).
  intros f Hin Hty. rewrite Hfiles in Hin.
  apply List.filter_In in Hin as [Hin Hout].
  apply negb_true_iff, mem_false in Hout.
  rewrite Hb. apply elem_of_difference. split; [apply H; auto|].
  rewrite elem_of_list_to_set, list_elem_of_In.
  intros Hk. apply in_map_iff in Hk as (f' & E & Hf').
  apply List.filter_In in Hf' as [Hf' _].
  assert (f' = f).
  { apply (NoDup_map_eq file.file_key (files (db w))); auto. }
  subst f'. apply Hout. apply in_map. exact Hf'.
Qed.

(** The states reached keep the constraints and the blobs of their block
    rows. *)
Lemma reachable_invariant w0 w :
  constraints (db w0) -> blobs_present w0 -> reachable special w0 w ->
  constraints (db w) /\ blobs_present w.
Proof.
  intros Hc0 Hb0 Hreach. induction Hreach as [|w c fs Hreach [Hc Hb] Hset].
  - auto.
  - set (w1 := set_faults fs w) in *.
    assert (Hc1 : constraints (db w1)) by exact Hc.
    assert (Hb1 : blobs_present w1) by exact Hb.
    destruct c as [fileKey|fileId|memberId rootFileId targetFileKey];
      cbn [run_call snd].
    + pose proof (deleteFile_shrinks fileKey w1) as Hsh.
      split; [apply Hsh; exact Hc1|].
      cbn [settled run_call fst snd] in Hset. destruct Hset as [Hret|Hquiet].
      * unfold thrown in Hret.
        destruct (deleteFile special fileKey w1) as [[e|g] w2] eqn:E;
          [discriminate|].
        eapply blobs_present_deleteFile; eauto.
      * eapply blobs_present_shrinks; eauto.
    + pose proof (deleteTemporaryFile_keeps fileId w1) as Hk.
      split; [apply Hk; exact Hc1|eapply blobs_present_keeps; eauto].
    + pose proof (moveToTrash_keeps memberId rootFileId targetFileKey w1) as Hk.
      split; [apply Hk; exact Hc1|eapply blobs_present_keeps; eauto].
Qed.

(** C7, as the code has it: in every state the delete service reaches from a
    state that keeps the constraints and holds the blob of every block row,
    by calls of [moveToTrash] and [deleteTemporaryFile] of any outcome and
    calls of [deleteFile] that return or stop before their first call to the
    storage, whatever the store refuses, every block row has its blob. (A
    [deleteFile] that throws after it called the storage is the case left
    out: it calls the storage before it deletes the rows.) *)
Theorem blobs_present_reachable w0 w :
  constraints (db w0) -> blobs_present w0 -> reachable special w0 w ->
  blobs_present w.
Proof.
  intros Hc Hb Hreach. apply (reachable_invariant w0 w Hc Hb Hreach).
Qed.

End ServiceKeeps.

Section MoveToTrashProperties.

Variable special : string -> bool.

Lemma slice_all (a : list Z) x : slice a (len (a ++ [x]) - 1) = [].
Proof.
  rewrite <- (app_nil_r a) at 1. apply slice_prefix.
Qed.

(** The rows a move updates: each once, all of them rows of the table. *)
Lemma move_targets d target tp :
  constraints d -> materialized d ->
  In tp (file_paths d) -> file_path.file_id tp = file.id target ->
  let targets :=
    paths_hasEvery d (file_path.path tp ++ [file.id target]) ++ [tp] in
  List.NoDup (map file_path.file_id targets)
  /\ (forall q, In q targets -> In q (file_paths d))
  /\ (forall q, In q (file_paths d) ->
        In q targets <->
        q = tp \/ In (file.id target) (file_path.path q)).
Proof.
  intros [Hpk Hkey Hu Hfk] Hm Htp Hid targets.
  assert (Hdesc : forall q,
    In q (paths_hasEvery d (file_path.path tp ++ [file.id target])) <->
    In q (file_paths d) /\ In (file.id target) (file_path.path q)).
  { intros q. unfold paths_hasEvery. rewrite List.filter_In.
    split; intros [Hq H]; (split; [exact Hq|]).
    - rewrite hasEvery_In in H. apply H. apply in_or_app. simpl. auto.
    - rewrite <- Hid. apply (hasEvery_through d tp q Hu Hm Htp Hq).
      apply (through_iff_In d tp q Hu Hm Htp Hq). rewrite Hid. exact H. }
  assert (Hself : ~ In (file.id target) (file_path.path tp)).
  { rewrite <- Hid. apply (self_not_in_path d tp Hu Hm Htp). }
  split; [|split].
  - subst targets. rewrite map_app. apply List.NoDup_app.
    + apply NoDup_map_filter. exact Hu.
    + repeat constructor. simpl. tauto.
    + intros i Hi [<-|[]]. apply in_map_iff in Hi as (q & E & Hq).
      apply Hdesc in Hq as [Hq Hin].
      assert (q = tp) by (eapply NoDup_map_eq; eauto). subst q. tauto.
  - subst targets. intros q Hq. apply in_app_or in Hq as [Hq|[<-|[]]]; auto.
    apply Hdesc in Hq. tauto.
  - subst targets. intros q Hq. rewrite in_app_iff, Hdesc. simpl.
    split; intros H; intuition auto.
Qed.

(** C6, as the code has it: [moveToTrash] of a special container never
    returns and leaves every path (every table) as it was. The exception is
    BadRequestException ('Cannot remove special container to trash') when the
    store answers and exactly one trash container is found for the member;
    the errors about the trash container come first otherwise. *)
Theorem moveToTrash_special_container memberId rootFileId targetFileKey w f p :
  lookup (db w) targetFileKey = Some (f, Some p) ->
  is_special_container special f p = true ->
  let r := moveToTrash special memberId rootFileId targetFileKey w in
  (exists e, fst r = inl e)
  /\ db (snd r) = db w
  /\ (hd false (faults w) = false -> hd false (tl (faults w)) = false ->
      length (trash_containers (db w) memberId rootFileId) = 1%nat ->
      fst r =
      inl (BadRequestException "Cannot remove special container to trash")).
Proof.
  intros Hl Hsp r.
  assert (Hfail : exists e, fst r = inl e).
  { subst r.
    destruct (moveToTrash special memberId rootFileId targetFileKey w)
      as [[e|b] w'] eqn:E; [eexists; reflexivity|].
    apply moveToTrash_inr in E
      as (t & trashp & target & tp & _ & _ & Hl' & Hsp' & _).
    rewrite Hl in Hl'. inversion Hl'; subst. congruence. }
  split; [exact Hfail|]. split.
  - destruct Hfail as [e He]. subst r.
    destruct (moveToTrash special memberId rootFileId targetFileKey w)
      as [[e'|b] w'] eqn:E; [|discriminate].
    apply moveToTrash_inl in E. exact E.
  - intros Hf1 Hf2 Hn. subst r. unfold moveToTrash. rewrite bind_run.
    unfold file_findMany_trash. rewrite query_accepted by exact Hf1.
    destruct (trash_containers (db w) memberId rootFileId) as [|t [|t' ts]] eqn:Ht;
      try discriminate.
    assert (Hin : In t (trash_containers (db w) memberId rootFileId))
      by (rewrite Ht; left; reflexivity).
    apply trash_containers_file_path in Hin as (trashp & Htp & _).
    cbn [map]. rewrite Htp. rewrite bind_run. unfold throw_if.
    replace (1 <? len _) with false by reflexivity.
    cbn [ret]. rewrite bind_run. unfold file_findUniqueOrThrow.
    rewrite statement_accepted by exact Hf2.
    cbn [db set_faults]. rewrite Hl. rewrite bind_run.
    unfold throw_if. rewrite Hsp. reflexivity.
Qed.


End MoveToTrashProperties.

Section DeleteFileProperties.

Variable special : string -> bool.

(** C3: a [deleteFile] that returns has removed the row of the file and the
    rows of its descendants, each of them once and no other row, which makes
    one row more than there are descendants, and it has invoked the delete of
    the storage once for every block file among them, with its key, and for no
    other file. The descendants are the files the [hasEvery] query selects;
    when the paths are materialized they are the files whose path goes through
    the file. *)
Theorem deleteFile_removes_subtree fileKey w g w' :
  constraints (db w) ->
  deleteFile special fileKey w = (inr g, w') ->
  exists p,
    lookup (db w) fileKey = Some (g, Some p)
    /\ let D := descendantsOf (db w) g p in
       let calls := map file.file_key (List.filter is_block (g :: D)) in
       List.NoDup (map file.id (g :: D))
       /\ (forall f, In f (g :: D) -> In f (files (db w)))
       /\ files (db w') =
          List.filter (fun f => negb (mem (file.id f) (map file.id (g :: D))))
            (files (db w))
       /\ (length (files (db w)) = length (files (db w')) + length D + 1)%nat
       /\ storage_calls w' = rev calls ++ storage_calls w
       /\ List.NoDup calls
       /\ (forall f, In f (files (db w)) ->
             In (file.file_key f) calls <-> In f (g :: D) /\ file.type f = block)
       /\ (materialized (db w) ->
           forall f q, In f (files (db w)) -> file_path_of (db w) f = Some q ->
             In f D <-> In (file.id g) (file_path.path q)).
Proof.
  intros Hc Hrun. pose proof Hc as [Hpk Hkey Hfp Hfk].
  pose proof Hrun as Hrun'.
  apply deleteFile_inr in Hrun' as (p & Hl & _ & _ & _ & _ & Hcalls);
    [|exact Hpk].
  exists p. split; [exact Hl|]. intros D calls. fold calls in Hcalls.
  destruct (deleteFile_rows special fileKey w g w' p Hc Hrun Hl) as (Hnd & Hall & Hfiles).
  fold D in Hnd, Hall, Hfiles.
  assert (Hndc : List.NoDup (map file.file_key (g :: D))).
  { eapply NoDup_map_other; eauto. }
  split; [exact Hnd|]. split; [exact Hall|]. split; [exact Hfiles|].
  split; [|split; [exact Hcalls|split; [|split]]].
  - rewrite Hfiles.
    rewrite <- (filter_length (fun f => mem (file.id f) (map file.id (g :: D)))
                  (files (db w))).
    rewrite length_filter_mem; [| exact Hpk | exact Hnd |].
    + rewrite length_map. cbn [length]. lia.
    + intros i Hi. apply in_map_iff in Hi as (f & <- & Hf).
      apply in_map. auto.
  - subst calls. apply NoDup_map_filter. exact Hndc.
  - intros f Hf. subst calls. split.
    + intros Hin. apply in_map_iff in Hin as (f' & E & Hf').
      apply List.filter_In in Hf' as [Hf' Hb].
      assert (f' = f).
      { apply (NoDup_map_eq file.file_key (files (db w))); auto. }
      subst f'. split; [exact Hf'|].
      unfold is_block in Hb. destruct (file.type f); try discriminate.
      reflexivity.
    + intros [Hin Hb]. apply in_map. apply List.filter_In.
      split; [exact Hin|]. unfold is_block. rewrite Hb. reflexivity.
  - intros Hm f q Hf Hq. apply lookup_Some in Hl as (Hg & _ & Hp).
    symmetry in Hp. exact (descendantsOf_through (db w) g p f q Hc Hm Hp Hf Hq).
Qed.

(** C5: [deleteFile] takes no flag that forces a deletion, and on a special
    container, a file with a well-known name whose path has at most one
    identifier, it throws BadRequestException ('Cannot remove special
    container') before anything is deleted: the tables, the blobs and the
    calls made to the storage are what they were. A file with a well-known
    name deeper in the tree is not protected: on a sound store that refuses
    nothing [deleteFile] returns its row, which is gone afterwards. *)
Theorem deleteFile_special_container fileKey w f p :
  lookup (db w) fileKey = Some (f, Some p) ->
  special (file.file_name f) = true ->
  (len (file_path.path p) <= 1 -> hd false (faults w) = false ->
   let r := deleteFile special fileKey w in
   fst r = inl (BadRequestException "Cannot remove special container")
   /\ db (snd r) = db w
   /\ blobs (snd r) = blobs w
   /\ storage_calls (snd r) = storage_calls w)
  /\ (1 < len (file_path.path p) ->
      constraints (db w) -> materialized (db w) -> faults w = [] ->
      exists w',
        deleteFile special fileKey w = (inr f, w')
        /\ ~ In f (files (db w'))).
Proof.
  intros Hl Hname. split.
  - intros Hlen Hf. unfold deleteFile. rewrite bind_run.
    unfold file_findUniqueOrThrow. rewrite statement_accepted by exact Hf.
    rewrite Hl. rewrite bind_run. unfold throw_if, is_special_container.
    rewrite Hname. replace (len (file_path.path p) <=? 1) with true
      by (symmetry; apply Z.leb_le; exact Hlen).
    simpl. auto.
  - intros Hlen Hc Hm Hfs.
    assert (Hsp : is_special_container special f p = false).
    { unfold is_special_container. rewrite Hname. simpl.
      apply Z.leb_gt. exact Hlen. }
    destruct (deleteFile_returns special fileKey w f p Hc Hm Hfs Hl Hsp)
      as [w' Hrun].
    exists w'. split; [exact Hrun|].
    destruct Hc as [Hpk _ _ _].
    apply deleteFile_inr in Hrun as (p' & _ & _ & _ & Hdb & _); [|exact Hpk].
    rewrite Hdb. cbn [delete_files files]. rewrite List.filter_In.
    intros [_ H]. rewrite Z.eqb_refl in H. discriminate.
Qed.

End DeleteFileProperties.

(** C1, on the store [db0]: when the store refuses the last statement of
    [deleteFile] of docs, the call throws, the rows of the three descendants
    of docs are gone and the row of docs is still there; [deleteFile] runs
    [deleteMany] and [delete] as two statements, where [moveToTrash] wraps its
    updates in one transaction. *)
Theorem deleteFile_rows_not_atomic :
  let r := deleteFile enum_trash_only "k-docs" (w0 [false; false; false; true]) in
  descendantsOf db0 f_docs (file_path.mk 3 [1]) = [f_a; f_sub; f_b]
  /\ fst r = inl PrismaClientUnknownRequestError
  /\ files (db (snd r)) =
     [f_root; f_trash; f_docs; f_c; f_nopath;
      g_root; g_x; h_root; h_trash1; h_trash2; h_y].
Proof.
  vm_compute. repeat split.
Qed.

(** ** The chunk assembler: one merge, the right blob *)

Section AssemblerProperties.

Local Open Scope nat_scope.

Variable permanent_key : string -> string.

Lemma elem_of_all_indices k i : i ∈ all_indices k <-> i < k.
Proof. unfold all_indices. rewrite elem_of_list_to_set, elem_of_seq. lia. Qed.

Lemma read_chunks_all (chunks : gmap nat bytes) (payload : nat -> bytes) a n :
  (forall i, a <= i < a + n -> chunks !! i = Some (payload i)) ->
  read_chunks chunks (seq a n) = Some (concat (map payload (seq a n))).
Proof.
  revert a. induction n as [|n IH]; intros a H;
    cbn [seq read_chunks map concat]; [reflexivity|].
  rewrite (H a) by lia. rewrite IH; [reflexivity|].
  intros i Hi. apply H. lia.
Qed.

(** One more chunk of the upload. *)
Lemma uploadChunk_fed uploadKey k payload a0 (S : gset nat) a i :
  i < k ->
  fed permanent_key uploadKey k payload a0 S a ->
  exists done a',
    uploadChunk permanent_key io_ok uploadKey i k (payload i) a = (inr done, a')
    /\ fed permanent_key uploadKey k payload a0 ({[i]} ∪ S) a'.
Proof.
  intros Hi [Hrec Hst]. unfold uploadChunk.
  set (u := default no_upload (uploads a !! uploadKey)) in *.
  cbn [received]. rewrite Hrec.
  assert (Hin : i ∈ all_indices k) by (apply elem_of_all_indices; exact Hi).
  destruct (bool_decide_reflect (S = all_indices k)) as [Hfull|Hpart].
  - (* the set was complete already *)
    assert (Hsame : {[i]} ∪ S = all_indices k) by set_solver.
    rewrite (bool_decide_eq_true_2 _ Hsame). cbn [andb negb].
    eexists _, _. split; [reflexivity|].
    unfold fed. cbn [uploads]. rewrite lookup_insert_eq. cbn [default from_option id received scratch].
    split; [reflexivity|].
    rewrite (bool_decide_eq_true_2 _ Hsame). exact Hst.
  - destruct Hst as (Hm & Hg & Hsc).
    destruct (bool_decide_reflect ({[i]} ∪ S = all_indices k)) as [Hnow|Hnot];
      cbn [andb negb].
    + (* this chunk completes the set *)
      unfold mergeChunks. cbn [uploads]. rewrite lookup_insert_eq.
      cbn [default from_option id received scratch].
      rewrite (read_chunks_all _ payload 0 k).
      2:{ intros j Hj. destruct (decide (j = i)) as [->|Hne].
          - apply lookup_insert_eq.
          - rewrite lookup_insert_ne by congruence. apply Hsc.
            assert (j ∈ all_indices k) by (apply elem_of_all_indices; lia).
            set_solver. }
      eexists _, _. split; [reflexivity|].
      unfold fed. cbn [uploads gateway merges].
      rewrite lookup_insert_eq. cbn [default from_option id received scratch].
      split; [reflexivity|].
      rewrite (bool_decide_eq_true_2 _ Hnow). split.
      * rewrite Hm. reflexivity.
      * apply lookup_insert_eq.
    + (* the set is still incomplete *)
      eexists _, _. split; [reflexivity|].
      unfold fed. cbn [uploads gateway merges].
      rewrite lookup_insert_eq. cbn [default from_option id received scratch].
      split; [reflexivity|].
      rewrite (bool_decide_eq_false_2 _ Hnot).
      split; [exact Hm|]. split; [exact Hg|].
      intros j Hj. destruct (decide (j = i)) as [->|Hne].
      * apply lookup_insert_eq.
      * rewrite lookup_insert_ne by congruence. apply Hsc. set_solver.
Qed.

Lemma feed_fed uploadKey k payload a0 order :
  (forall i, In i order -> i < k) ->
  forall (S : gset nat) a,
    fed permanent_key uploadKey k payload a0 S a ->
    exists a',
      feed permanent_key uploadKey k payload order a = Some a'
      /\ fed permanent_key uploadKey k payload a0 (list_to_set order ∪ S) a'.
Proof.
  induction order as [|i rest IH]; intros Hlt S a Hfed; cbn [feed].
  - exists a. split; [reflexivity|].
    replace (list_to_set [] ∪ S) with S by set_solver. exact Hfed.
  - destruct (uploadChunk_fed uploadKey k payload a0 S a i) as (d & a1 & -> & H1);
      [apply Hlt; left; reflexivity|exact Hfed|].
    destruct (IH (fun j Hj => Hlt j (or_intror Hj)) _ _ H1) as (a' & Hrun & H').
    exists a'. split; [exact Hrun|].
    replace (list_to_set (i :: rest) ∪ S) with (list_to_set rest ∪ ({[i]} ∪ S))
      by set_solver.
    exact H'.
Qed.

(** C4: chunks of one upload of [k] chunks, with indices below [k], fed in
    any order and with any repetitions (a repeated index carries the same
    payload) to an assembler that has nothing for the upload yet: every chunk
    is accepted; when the order holds every index of [0 .. k-1] exactly one
    merge of the upload took place and the blob under its permanent key is the
    concatenation of the payloads in index order; when an index is missing no
    merge took place and the gateway is what it was. *)
Theorem feed_merges_once uploadKey k payload order a :
  0 < k ->
  (forall i, In i order -> i < k) ->
  uploads a !! uploadKey = None ->
  exists a',
    feed permanent_key uploadKey k payload order a = Some a'
    /\ ((forall i, i < k -> In i order) ->
        merges a' = uploadKey :: merges a
        /\ gateway a' !! permanent_key uploadKey =
           Some (concat (map payload (seq 0 k))))
    /\ (~ (forall i, i < k -> In i order) ->
        merges a' = merges a /\ gateway a' = gateway a).
Proof.
  intros Hk Hlt Hnew.
  assert (Hstart : fed permanent_key uploadKey k payload a ∅ a).
  { unfold fed. rewrite Hnew. cbn [default from_option id no_upload received scratch].
    split; [reflexivity|].
    rewrite bool_decide_eq_false_2.
    - repeat split. intros i Hi. set_solver.
    - intros E. assert (0 ∈ all_indices k) by (apply elem_of_all_indices; lia).
      set_solver. }
  destruct (feed_fed uploadKey k payload a order Hlt ∅ a Hstart)
    as (a' & Hrun & _ & Hst).
  exists a'. split; [exact Hrun|].
  assert (Hcov : list_to_set order ∪ ∅ = all_indices k <->
                 (forall i, i < k -> In i order)).
  { split.
    - intros E i Hi. apply list_elem_of_In.
      assert (i ∈ all_indices k) by (apply elem_of_all_indices; exact Hi).
      set_solver.
    - intros H. apply set_eq. intros i.
      rewrite elem_of_union, elem_of_list_to_set, list_elem_of_In,
        elem_of_all_indices.
      split; [intros [Hi|Hi]; [auto|set_solver]|auto]. }
  destruct (bool_decide_reflect (list_to_set order ∪ ∅ = all_indices k))
    as [Hfull|Hpart].
  - split; [intros _; exact Hst|]. intros Hn. exfalso. apply Hn, Hcov, Hfull.
  - split; [intros Hall; exfalso; apply Hpart, Hcov, Hall|].
    intros _. destruct Hst as (Hm & Hg & _). auto.
Qed.

End AssemblerProperties.

(** ** The properties on the store [db0] *)

Lemma db0_constraints : constraints db0.
Proof. apply check_constraints_sound. reflexivity. Qed.

Lemma db0_materialized : materialized db0.
Proof. apply check_materialized_sound. reflexivity. Qed.

(** The file without a path row: [deleteFile] throws the internal error. *)
Lemma deleteFile_without_file_path_witness :
  fst (deleteFile enum_trash_only "k-nopath" (w0 [])) =
  inl (InternalServerErrorException "File path not found").
Proof.
  exact (proj1 (deleteFile_without_file_path enum_trash_only "k-nopath" (w0 [])
                  f_nopath eq_refl eq_refl)).
Defined.

(** Member 20 has no trash container, member 30 has two. *)
Lemma moveToTrash_trash_count_witness :
  fst (moveToTrash enum_trash_only 20 10 "k-x" (w0 [])) =
  inl (NotFoundException "Trash not found")
  /\ fst (moveToTrash enum_trash_only 30 12 "k-y" (w0 [])) =
     inl (InternalServerErrorException "Multiple trash found").
Proof.
  split.
  - apply (moveToTrash_trash_count enum_trash_only 20 10 "k-x" (w0 []) eq_refl).
    reflexivity.
  - apply (moveToTrash_trash_count enum_trash_only 30 12 "k-y" (w0 []) eq_refl).
    vm_compute. lia.
Defined.

(** C2 fails as it is stated: member 20 has no trash container (the number
    found is not one), and [moveToTrash] does not throw the internal error. *)
Lemma moveToTrash_no_trash_not_internal :
  ~ (length (trash_containers db0 20 10) <> 1%nat ->
     exists m, fst (moveToTrash enum_trash_only 20 10 "k-x" (w0 [])) =
               inl (InternalServerErrorException m)).
Proof.
  intros H. destruct H as [m Hm]; [vm_compute; lia|].
  vm_compute in Hm. discriminate.
Qed.

(** The upload in flight is deleted once; the second call throws. *)
Lemma deleteTemporaryFile_then_again_witness :
  fst (deleteTemporaryFile 1 (w0 [])) =
  inr (temp_file.mk 1 7 "k-up" "up.bin" 0 0 3)
  /\ fst (deleteTemporaryFile 1 (snd (deleteTemporaryFile 1 (w0 [])))) = inl P2025.
Proof.
  pose proof (deleteTemporaryFile_then_again 1 (w0 []) eq_refl eq_refl) as H.
  cbv zeta in H. destruct H as (H1 & _ & _ & _ & _ & _ & H2 & _).
  split; [exact H1|exact H2].
Defined.

(** C8 fails as it is stated: the second [deleteTemporaryFile] for the same
    upload does not succeed. *)
Lemma deleteTemporaryFile_not_idempotent :
  ~ (exists t,
       fst (deleteTemporaryFile 1 (snd (deleteTemporaryFile 1 (w0 [])))) = inr t).
Proof.
  intros [t H]. vm_compute in H. discriminate.
Qed.

(** [deleteFile] of docs removes docs and its three descendants. *)
Lemma deleteFile_removes_subtree_witness :
  constraints db0
  /\ exists w',
       deleteFile enum_trash_only "k-docs" (w0 []) = (inr f_docs, w')
       /\ exists p,
            lookup db0 "k-docs" = Some (f_docs, Some p)
            /\ (length (files db0) =
                length (files (db w')) + length (descendantsOf db0 f_docs p) + 1)%nat.
Proof.
  split; [exact db0_constraints|].
  exists (snd (deleteFile enum_trash_only "k-docs" (w0 []))).
  assert (Hrun : deleteFile enum_trash_only "k-docs" (w0 []) =
                 (inr f_docs, snd (deleteFile enum_trash_only "k-docs" (w0 [])))).
  { vm_compute. reflexivity. }
  split; [exact Hrun|].
  destruct (deleteFile_removes_subtree enum_trash_only "k-docs" (w0 []) f_docs _
              db0_constraints Hrun) as (p & Hl & _ & _ & _ & Hlen & _).
  exists p. split; [exact Hl|exact Hlen].
Defined.

(** The trash of member 7 is protected, the folder named trash inside docs is
    not. *)
Lemma deleteFile_special_container_witness :
  fst (deleteFile enum_trash_only "k-trash" (w0 [])) =
  inl (BadRequestException "Cannot remove special container")
  /\ exists w', deleteFile enum_trash_only "k-sub" (w0 []) = (inr f_sub, w')
       /\ ~ In f_sub (files (db w')).
Proof.
  split.
  - apply (deleteFile_special_container enum_trash_only "k-trash" (w0 [])
             f_trash (file_path.mk 2 [1]) eq_refl eq_refl);
      [vm_compute; discriminate|reflexivity].
  - apply (deleteFile_special_container enum_trash_only "k-sub" (w0 [])
             f_sub (file_path.mk 5 [1; 3]) eq_refl eq_refl);
      [reflexivity|exact db0_constraints|exact db0_materialized|reflexivity].
Defined.

(** The trash of member 7 cannot be moved to the trash. *)
Lemma moveToTrash_special_container_witness :
  fst (moveToTrash enum_trash_only 7 1 "k-trash" (w0 [])) =
  inl (BadRequestException "Cannot remove special container to trash")
  /\ db (snd (moveToTrash enum_trash_only 7 1 "k-trash" (w0 []))) = db0.
Proof.
  pose proof (moveToTrash_special_container enum_trash_only 7 1 "k-trash" (w0 [])
                f_trash (file_path.mk 2 [1]) eq_refl eq_refl) as H.
  cbv zeta in H. destruct H as (_ & Hdb & He).
  split; [apply He; reflexivity|exact Hdb].
Defined.

(** C6 fails as it is stated: member 30 has two trash containers, both
    special, and [moveToTrash] of one of them throws the internal error, not
    the validation error. *)
Lemma moveToTrash_special_not_bad_request :
  is_special_container enum_trash_only h_trash1 (file_path.mk 13 [12]) = true
  /\ lookup db0 "k-t1" = Some (h_trash1, Some (file_path.mk 13 [12]))
  /\ ~ (exists m, fst (moveToTrash enum_trash_only 30 12 "k-t1" (w0 [])) =
                  inl (BadRequestException m)).
Proof.
  split; [reflexivity|]. split; [reflexivity|].
  intros [m H]. vm_compute in H. discriminate.
Qed.


Lemma w0_blobs_present fs : blobs_present (w0 fs).
Proof.
  intros f Hin Hty. cbn in Hin.
  repeat (destruct Hin as [<-|Hin]; [try discriminate Hty; cbn; set_solver|]).
  destruct Hin.
Qed.

(** After [deleteFile] of docs and a move of x.txt that finds no trash, every
    block row still has its blob. *)
Lemma blobs_present_reachable_witness :
  blobs_present
    (snd (run_call enum_trash_only (MoveToTrash 20 10 "k-x")
            (set_faults []
               (snd (run_call enum_trash_only (DeleteFile "k-docs")
                       (set_faults [] (w0 []))))))).
Proof.
  apply (blobs_present_reachable enum_trash_only (w0 [])).
  - exact db0_constraints.
  - exact (w0_blobs_present []).
  - apply reachable_call; [|exact I].
    apply reachable_call; [apply reachable_start|].
    left. vm_compute. reflexivity.
Defined.

(** C7 fails as it is stated: the store refuses the [deleteMany] of
    [deleteFile] of docs; the call has already asked the storage to delete the
    blobs of a.txt and b.txt, and their rows persist. *)
Lemma deleteFile_rows_outlive_blobs :
  let w := w0 [false; false; true] in
  let w' := snd (deleteFile enum_trash_only "k-docs" w) in
  blobs_present w
  /\ In f_a (files (db w'))
  /\ file.type f_a = block
  /\ In (file.file_key f_a) (storage_calls w')
  /\ (file.file_key f_a ∉ blobs w')
  /\ ~ blobs_present w'.
Proof.
  intros w w'.
  assert (Hin : In f_a (files (db w'))) by (vm_compute; tauto).
  assert (Hout : file.file_key f_a ∉ blobs w').
  { subst w' w. apply (bool_decide_unpack _). vm_compute. exact I. }
  split; [apply w0_blobs_present|]. split; [exact Hin|].
  split; [reflexivity|]. split; [vm_compute; tauto|]. split; [exact Hout|].
  intros H. apply Hout. apply H; [exact Hin|reflexivity].
Qed.


(** The first scenario of the design document, with the second chunk sent
    twice: one merge, and the blob is "Hello World". *)
Lemma feed_merges_once_witness :
  exists a',
    feed (fun key => key) "up" 2 hello_world [1; 0; 1]%nat no_uploads = Some a'
    /\ merges a' = ["up"]
    /\ gateway a' !! "up" = Some (list_byte_of_string "Hello World").
Proof.
  destruct (feed_merges_once (fun key => key) "up" 2 hello_world [1; 0; 1]%nat
              no_uploads) as (a' & Hrun & Hall & _).
  - lia.
  - intros i [<-|[<-|[<-|[]]]]; lia.
  - reflexivity.
  - exists a'. split; [exact Hrun|]. apply Hall.
    intros i Hi. destruct i as [|[|i]]; simpl; auto. lia.
Defined.

(** ** More on [deleteFile] *)

Lemma lookup_None d fileKey :
  (forall f, In f (files d) -> file.file_key f <> fileKey) ->
  lookup d fileKey = None.
Proof.
  intros H. unfold lookup.
  destruct (List.find _ (files d)) as [f|] eqn:E; [|reflexivity].
  apply find_some in E as [Hin E]. apply String.eqb_eq in E.
  exfalso. exact (H f Hin E).
Qed.

Section DeleteFileMore.

Variable special : string -> bool.

Lemma deleteFile_no_row fileKey w :
  hd false (faults w) = false ->
  lookup (db w) fileKey = None ->
  deleteFile special fileKey w = (inl P2025, set_faults (tl (faults w)) w).
Proof.
  intros Hf Hnone. unfold deleteFile. rewrite bind_run.
  unfold file_findUniqueOrThrow. rewrite statement_accepted by exact Hf.
  rewrite Hnone. reflexivity.
Qed.

(** The states [deleteFile] can leave the tables in: as they were, without
    the descendants of the file, or without the file and its descendants. *)
Lemma deleteFile_db fileKey w :
  let r := deleteFile special fileKey w in
  db (snd r) = db w
  \/ exists g p,
       lookup (db w) fileKey = Some (g, Some p)
       /\ let d1 :=
            delete_files
              (fun f => mem (file.id f) (map file.id (descendantsOf (db w) g p)))
              (db w) in
          db (snd r) = d1
          \/ db (snd r) = delete_files (fun f => Z.eqb (file.id f) (file.id g)) d1.
Proof.
  cbv zeta. unfold deleteFile. rewrite bind_run.
  destruct (file_findUniqueOrThrow fileKey w) as [[e|[f o]] w1] eqn:E1.
  { apply statement_inl in E1 as ->. left. reflexivity. }
  apply statement_inr in E1 as (d1 & Hq & ->).
  destruct (lookup (db w) fileKey) as [r|] eqn:Hl; [|discriminate].
  inversion Hq; subst r d1; clear Hq.
  destruct o as [p|]; [|left; reflexivity].
  rewrite bind_run. unfold throw_if.
  destruct (is_special_container special f p); [left; reflexivity|].
  cbn [ret]. rewrite bind_run.
  set (w1 := set_db (db w) (set_faults (tl (faults w)) w)).
  set (w2 := snd ((if file_type_eqb (file.type f) block
                   then storageService_deleteFile (file.file_key f)
                   else ret tt) w1)).
  assert (Hw2 : (if file_type_eqb (file.type f) block
                 then storageService_deleteFile (file.file_key f)
                 else ret tt) w1 = (inr tt, w2)).
  { subst w2. destruct (file_type_eqb (file.type f) block); reflexivity. }
  assert (Hdb2 : db w2 = db w).
  { subst w2 w1. destruct (file_type_eqb (file.type f) block); reflexivity. }
  rewrite Hw2, bind_run.
  destruct (file_path_findMany_file (file_path.path p ++ [file.id f]) w2)
    as [[e|D] w3] eqn:E3.
  { apply statement_inl in E3 as ->. left. exact Hdb2. }
  apply query_inr in E3 as [-> ->].
  rewrite bind_run, for_each_storage. rewrite bind_run.
  match goal with |- context [file_deleteMany ?ids ?w] =>
    destruct (file_deleteMany ids w) as [[e|n] w4] eqn:E4 end.
  { apply statement_inl in E4 as ->. left. exact Hdb2. }
  apply statement_inr in E4 as (d4 & Hq4 & ->). inversion Hq4; subst; clear Hq4.
  right. exists f, p. split; [reflexivity|]. cbv zeta.
  cbn [db set_db set_faults] in *. rewrite Hdb2. fold (descendantsOf (db w) f p).
  match goal with |- context [file_delete ?i ?w] =>
    destruct (file_delete i w) as [[e|x] w5] eqn:E5 end.
  - apply statement_inl in E5 as ->. left. reflexivity.
  - apply statement_inr in E5 as (d5 & Hq5 & ->). cbn in Hq5.
    match type of Hq5 with context [List.find ?s ?l] =>
      destruct (List.find s l) end; [|discriminate].
    inversion Hq5; subst. right. reflexivity.
Qed.

(** [deleteFile] up to its row statements: when the store answers the lookup
    and the query for the descendants, the storage was called for every block
    file of the subtree and the two row statements are what is left. *)
Lemma deleteFile_upto_rows fileKey w g p :
  lookup (db w) fileKey = Some (g, Some p) ->
  is_special_container special g p = false ->
  hd false (faults w) = false ->
  hd false (tl (faults w)) = false ->
  let D := descendantsOf (db w) g p in
  let keys := map file.file_key (List.filter is_block (g :: D)) in
  deleteFile special fileKey w =
  (do file_deleteMany (map file.id D) then file_delete (file.id g))
    (mkWorld (db w) (blobs w ∖ list_to_set keys)
       (rev keys ++ storage_calls w) (tl (tl (faults w)))).
Proof.
  intros Hl Hsp Hf1 Hf2 D keys. unfold deleteFile. rewrite bind_run.
  unfold file_findUniqueOrThrow. rewrite statement_accepted by exact Hf1.
  rewrite Hl. rewrite bind_run. unfold throw_if. rewrite Hsp.
  cbn [ret]. rewrite bind_run.
  destruct w as [d bl calls fs]. cbn [db blobs storage_calls faults] in *.
  unfold set_db, set_faults. cbn [db blobs storage_calls faults].
  subst keys. unfold is_block. cbn [List.filter].
  destruct (file_type_eqb (file.type g) block) eqn:Hb.
  - unfold storageService_deleteFile at 1. cbn [db blobs storage_calls faults].
    rewrite bind_run. unfold file_path_findMany_file.
    rewrite query_accepted by exact Hf2.
    cbn [db blobs storage_calls faults set_faults].
    rewrite bind_run, for_each_storage.
    cbn [db blobs storage_calls faults map rev].
    fold (descendantsOf d g p). fold D.
    f_equal. f_equal.
    + set_solver.
    + rewrite <- app_assoc. reflexivity.
  - cbn [ret]. rewrite bind_run. unfold file_path_findMany_file.
    rewrite query_accepted by exact Hf2.
    cbn [db blobs storage_calls faults set_faults].
    rewrite bind_run, for_each_storage.
    cbn [db blobs storage_calls faults].
    fold (descendantsOf d g p). fold D. reflexivity.
Qed.

(** X2: the rows are not deleted in one piece. When the store answers the
    first three statements of [deleteFile] and refuses the last, the [delete]
    of the file, the call throws the error of the store, the rows of the
    descendants are deleted, and on a sound store the row of the file is still
    there. *)
Theorem deleteFile_refused_delete fileKey w g p fs :
  lookup (db w) fileKey = Some (g, Some p) ->
  is_special_container special g p = false ->
  faults w = false :: false :: false :: true :: fs ->
  let D := descendantsOf (db w) g p in
  let r := deleteFile special fileKey w in
  fst r = inl PrismaClientUnknownRequestError
  /\ files (db (snd r)) =
     List.filter (fun f => negb (mem (file.id f) (map file.id D))) (files (db w))
  /\ (forall f, In f D -> ~ In f (files (db (snd r))))
  /\ (constraints (db w) -> materialized (db w) -> In g (files (db (snd r)))).
Proof.
  intros Hl Hsp Hfs D r. subst r.
  rewrite (deleteFile_upto_rows fileKey w g p Hl Hsp)
    by (rewrite Hfs; reflexivity).
  fold D. rewrite Hfs. cbn [tl]. rewrite bind_run.
  unfold file_deleteMany. rewrite statement_accepted by reflexivity.
  cbn [db faults tl set_db set_faults blobs storage_calls].
  unfold file_delete. rewrite statement_refused by reflexivity.
  cbn [fst snd db set_faults delete_files files].
  split; [reflexivity|]. split; [reflexivity|]. split.
  - intros f Hf Hin. apply List.filter_In in Hin as [_ Hin].
    apply negb_true_iff, mem_false in Hin. apply Hin. apply in_map. exact Hf.
  - intros Hc Hm. apply lookup_Some in Hl as (Hg & _ & Hp). symmetry in Hp.
    apply List.filter_In. split; [exact Hg|].
    apply negb_true_iff, mem_false.
    exact (not_own_descendant (db w) g p Hc Hm Hg Hp).
Qed.

(** X3: the storage comes before the rows. When the store answers the lookup
    and the query for the descendants and refuses the [deleteMany], the call
    throws the error of the store and no row is deleted, but the storage was
    already called for every block file of the subtree and their blobs are
    gone. *)
Theorem deleteFile_refused_deleteMany fileKey w g p fs :
  lookup (db w) fileKey = Some (g, Some p) ->
  is_special_container special g p = false ->
  faults w = false :: false :: true :: fs ->
  let D := descendantsOf (db w) g p in
  let keys := map file.file_key (List.filter is_block (g :: D)) in
  let r := deleteFile special fileKey w in
  fst r = inl PrismaClientUnknownRequestError
  /\ db (snd r) = db w
  /\ storage_calls (snd r) = rev keys ++ storage_calls w
  /\ (forall f, In f (g :: D) -> file.type f = block ->
        In f (files (db (snd r))) /\ file.file_key f ∉ blobs (snd r)).
Proof.
  intros Hl Hsp Hfs D keys r. subst r.
  rewrite (deleteFile_upto_rows fileKey w g p Hl Hsp)
    by (rewrite Hfs; reflexivity).
  fold D. fold keys. rewrite Hfs. cbn [tl]. rewrite bind_run.
  unfold file_deleteMany. rewrite statement_refused by reflexivity.
  cbn [fst snd db set_faults blobs storage_calls].
  split; [reflexivity|]. split; [reflexivity|]. split; [reflexivity|].
  intros f Hf Hb. split.
  - destruct Hf as [<-|Hf].
    + apply lookup_Some in Hl. tauto.
    + apply files_hasEvery_In in Hf. tauto.
  - intros Hin. apply elem_of_difference in Hin as [_ Hin]. apply Hin.
    apply elem_of_list_to_set, list_elem_of_In. subst keys.
    apply in_map. apply List.filter_In. split; [exact Hf|].
    unfold is_block. rewrite Hb. reflexivity.
Qed.

End DeleteFileMore.

(** ** What [deleteFile] removes and what it keeps *)

Lemma file_path_of_unique d f p :
  List.NoDup (map file_path.file_id (file_paths d)) ->
  In p (file_paths d) -> file_path.file_id p = file.id f ->
  file_path_of d f = Some p.
Proof.
  intros Hu Hp Hid. unfold file_path_of. rewrite <- Hid.
  apply (find_unique file_path.file_id Z.eqb _ p Z.eqb_eq Hu Hp).
Qed.

(** The identifiers a [deleteMany] over the identifiers of [D] removes. *)
Lemma mem_gone_many (l D : list file.t) x :
  (forall f, In f D -> In f l) ->
  mem x (map file.id
           (List.filter (fun f => mem (file.id f) (map file.id D)) l)) =
  mem x (map file.id D).
Proof.
  intros Hsub. apply eq_true_iff_eq. rewrite !mem_In. split.
  - intros H. apply in_map_iff in H as (f & <- & Hf).
    apply List.filter_In in Hf as [_ Hf]. apply mem_In. exact Hf.
  - intros H. pose proof H as H'. apply in_map_iff in H as (f & <- & Hf).
    apply in_map. apply List.filter_In. split; [auto|]. apply mem_In. exact H'.
Qed.

(** The identifiers a [delete] by identifier removes. *)
Lemma mem_gone_one (l : list file.t) g x :
  In g l ->
  mem x (map file.id (List.filter (fun f => Z.eqb (file.id f) (file.id g)) l)) =
  Z.eqb x (file.id g).
Proof.
  intros Hg. apply eq_true_iff_eq. rewrite mem_In, Z.eqb_eq. split.
  - intros H. apply in_map_iff in H as (f & <- & Hf).
    apply List.filter_In in Hf as [_ Hf]. apply Z.eqb_eq. exact Hf.
  - intros ->. apply in_map. apply List.filter_In. split; [exact Hg|].
    apply Z.eqb_refl.
Qed.

(** Deleting a set of files that holds the children of its members keeps the
    paths materialized. *)
Lemma materialized_delete_files sel d :
  materialized d ->
  (forall p q, In p (file_paths d) -> In q (file_paths d) ->
     file_path.path p = file_path.path q ++ [file_path.file_id q] ->
     In (file_path.file_id q) (map file.id (List.filter sel (files d))) ->
     In (file_path.file_id p) (map file.id (List.filter sel (files d)))) ->
  materialized (delete_files sel d).
Proof.
  intros Hm Hclosed p Hp. cbn [delete_files file_paths] in *.
  apply List.filter_In in Hp as [Hp Hkeep].
  apply negb_true_iff, mem_false in Hkeep.
  destruct (Hm p Hp) as [E|(q & Hq & E)]; [left; exact E|right].
  exists q. split; [|exact E]. apply List.filter_In. split; [exact Hq|].
  apply negb_true_iff, mem_false. intros Hgone. apply Hkeep.
  exact (Hclosed p q Hp Hq E Hgone).
Qed.

Section DeleteFileKeeps.

Variable special : string -> bool.

(** The path rows whose file is a descendant are those that go through the
    file. *)
Lemma descendant_row d g p q :
  constraints d -> materialized d ->
  file_path_of d g = Some p -> In q (file_paths d) ->
  In (file_path.file_id q) (map file.id (descendantsOf d g p))
  <-> In (file.id g) (file_path.path q).
Proof.
  intros Hc Hm Hp Hq. pose proof Hc as [Hpk Hkey Hu Hfk].
  destruct (proj1 (in_map_iff _ _ _) (Hfk q Hq)) as (f & Hid & Hf).
  assert (Hfq : file_path_of d f = Some q)
    by (apply file_path_of_unique; auto).
  rewrite <- (descendantsOf_through d g p f q Hc Hm Hp Hf Hfq). split.
  - intros H. apply in_map_iff in H as (f' & E & Hf').
    assert (f' = f).
    { apply (NoDup_map_eq file.id (files d)); auto; [|congruence].
      apply files_hasEvery_In in Hf'. tauto. }
    subst f'. exact Hf'.
  - intros H. rewrite <- Hid. apply in_map. exact H.
Qed.

(** Without the descendants of a file, and then without the file, the paths
    are still materialized. *)
Lemma materialized_delete_subtree d g p :
  constraints d -> materialized d ->
  In g (files d) -> file_path_of d g = Some p ->
  let d1 :=
    delete_files
      (fun f => mem (file.id f) (map file.id (descendantsOf d g p))) d in
  materialized d1
  /\ materialized (delete_files (fun f => Z.eqb (file.id f) (file.id g)) d1).
Proof.
  intros Hc Hm Hg Hp d1. pose proof Hc as [Hpk Hkey Hu Hfk].
  set (D := descendantsOf d g p) in *.
  assert (HD : forall f, In f D -> In f (files d)).
  { intros f Hf. apply files_hasEvery_In in Hf. tauto. }
  assert (Hrow : forall q, In q (file_paths d) ->
    In (file_path.file_id q) (map file.id D)
    <-> In (file.id g) (file_path.path q)).
  { intros q Hq. exact (descendant_row d g p q Hc Hm Hp Hq). }
  assert (Hgone : forall x,
    In x (map file.id
            (List.filter (fun f => mem (file.id f) (map file.id D)) (files d)))
    <-> In x (map file.id D)).
  { intros x. rewrite <- !mem_In. rewrite (mem_gone_many (files d) D x HD).
    reflexivity. }
  assert (Hm1 : materialized d1).
  { apply materialized_delete_files; [exact Hm|].
    intros r q Hr Hq E. rewrite !Hgone.
    rewrite (Hrow q Hq), (Hrow r Hr).
    intros Hin. rewrite E. apply in_or_app. left. exact Hin. }
  split; [exact Hm1|].
  apply materialized_delete_files; [exact Hm1|].
  intros r q Hr Hq E Hin. exfalso.
  apply in_map_iff in Hin as (f & Hid & Hf).
  apply List.filter_In in Hf as [_ Hf]. apply Z.eqb_eq in Hf.
  cbn [d1 delete_files file_paths] in Hr.
  apply List.filter_In in Hr as [Hr Hkeep].
  apply negb_true_iff, mem_false in Hkeep. apply Hkeep. apply Hgone.
  apply (Hrow r Hr).
  rewrite E. apply in_or_app. right. left. congruence.
Qed.

(** X5: whatever its outcome, a failure half way included, [deleteFile] on a
    sound store leaves a sound store: the constraints hold and the paths are
    materialized, so no remaining file has lost an ancestor. *)
Theorem deleteFile_keeps_sound fileKey w :
  constraints (db w) -> materialized (db w) ->
  let r := deleteFile special fileKey w in
  constraints (db (snd r)) /\ materialized (db (snd r)).
Proof.
  intros Hc Hm r. subst r.
  destruct (deleteFile_db special fileKey w)
    as [E|(g & p & Hl & [E|E])]; rewrite E.
  - auto.
  - apply lookup_Some in Hl as (Hg & _ & Hp). symmetry in Hp.
    split; [apply constraints_delete_files; exact Hc|].
    apply (materialized_delete_subtree (db w) g p Hc Hm Hg Hp).
  - apply lookup_Some in Hl as (Hg & _ & Hp). symmetry in Hp.
    split; [do 2 apply constraints_delete_files; exact Hc|].
    apply (materialized_delete_subtree (db w) g p Hc Hm Hg Hp).
Qed.

(** X4: what a [deleteFile] that returns takes with the rows of the subtree.
    The path rows and the uploads in flight of the files removed are gone (the
    cascade), those of the other files are untouched; and the blobs left are
    the blobs there were, less those of the block files removed. *)
Theorem deleteFile_cascade fileKey w g w' :
  constraints (db w) ->
  deleteFile special fileKey w = (inr g, w') ->
  exists p,
    lookup (db w) fileKey = Some (g, Some p)
    /\ let removed := g :: descendantsOf (db w) g p in
       file_paths (db w') =
       List.filter
         (fun q => negb (mem (file_path.file_id q) (map file.id removed)))
         (file_paths (db w))
       /\ temp_files (db w') =
          List.filter
            (fun t => negb (mem (temp_file.parent_id t) (map file.id removed)))
            (temp_files (db w))
       /\ (forall key,
             key ∈ blobs w' <->
             key ∈ blobs w
             /\ ~ exists f, In f removed /\ file.type f = block
                            /\ file.file_key f = key).
Proof.
  intros Hc Hrun. pose proof Hc as [Hpk Hkey Hu Hfk].
  apply deleteFile_inr in Hrun as (p & Hl & _ & Hself & Hdb & Hb & _);
    [|exact Hpk].
  exists p. split; [exact Hl|]. cbv zeta.
  set (D := descendantsOf (db w) g p) in *.
  apply lookup_Some in Hl as (Hg & _ & _).
  assert (HD : forall f, In f D -> In f (files (db w))).
  { intros f Hf. apply files_hasEvery_In in Hf. tauto. }
  assert (Hg1 : In g (List.filter
                        (fun f => negb (mem (file.id f) (map file.id D)))
                        (files (db w)))).
  { apply List.filter_In. split; [exact Hg|].
    apply negb_true_iff, mem_false. exact Hself. }
  assert (Hmem : forall x,
    negb (mem x (map file.id
                   (List.filter (fun f => Z.eqb (file.id f) (file.id g))
                      (List.filter
                         (fun f => negb (mem (file.id f) (map file.id D)))
                         (files (db w)))))
          || mem x (map file.id
                      (List.filter (fun f => mem (file.id f) (map file.id D))
                         (files (db w))))) =
    negb (mem x (map file.id (g :: D)))).
  { intros x. rewrite (mem_gone_one _ g x Hg1).
    rewrite (mem_gone_many (files (db w)) D x HD). reflexivity. }
  rewrite Hdb. cbn [delete_files files file_paths temp_files].
  split; [|split].
  - rewrite filter_twice. apply List.filter_ext. intros q. apply Hmem.
  - rewrite filter_twice. apply List.filter_ext. intros t. apply Hmem.
  - intros key. rewrite Hb, elem_of_difference.
    rewrite elem_of_list_to_set, list_elem_of_In.
    split; intros [Hin Hnot]; (split; [exact Hin|]); intros H; apply Hnot.
    + destruct H as (f & Hf & Hty & <-). apply in_map.
      apply List.filter_In. split; [exact Hf|].
      unfold is_block. rewrite Hty. reflexivity.
    + apply in_map_iff in H as (f & E & Hf).
      apply List.filter_In in Hf as [Hf Hblock].
      exists f. split; [exact Hf|]. split; [|exact E].
      unfold is_block in Hblock. destruct (file.type f); try discriminate.
      reflexivity.
Qed.

(** X6: a file removed is gone for good. After a [deleteFile] that returns,
    [deleteFile] with the key of the file, or of any of its descendants,
    throws P2025 and changes nothing. *)
Theorem deleteFile_again fileKey w g w' :
  constraints (db w) ->
  deleteFile special fileKey w = (inr g, w') ->
  hd false (faults w') = false ->
  exists p,
    lookup (db w) fileKey = Some (g, Some p)
    /\ forall f, In f (g :: descendantsOf (db w) g p) ->
         let r := deleteFile special (file.file_key f) w' in
         fst r = inl P2025
         /\ db (snd r) = db w'
         /\ blobs (snd r) = blobs w'
         /\ storage_calls (snd r) = storage_calls w'.
Proof.
  intros Hc Hrun Hf'. pose proof Hc as [Hpk Hkey Hu Hfk].
  pose proof Hrun as Hrun'.
  apply deleteFile_inr in Hrun' as (p & Hl & _); [|exact Hpk].
  exists p. split; [exact Hl|]. intros f Hf.
  destruct (deleteFile_rows special fileKey w g w' p Hc Hrun Hl)
    as (_ & Hall & Hfiles).
  assert (Hnone : lookup (db w') (file.file_key f) = None).
  { apply lookup_None. intros f' Hin E. rewrite Hfiles in Hin.
    apply List.filter_In in Hin as [Hin Hkeep].
    apply negb_true_iff, mem_false in Hkeep.
    assert (f' = f).
    { apply (NoDup_map_eq file.file_key (files (db w))); auto. }
    subst f'. apply Hkeep. apply in_map. exact Hf. }
  cbv zeta. rewrite (deleteFile_no_row special _ w' Hf' Hnone). simpl. auto.
Qed.

(** X7: on a sound store that refuses nothing, [deleteFile] with the key of a
    file that has a path row and is not a special container returns the row
    of that file. *)
Theorem deleteFile_returns_row w f p :
  constraints (db w) -> materialized (db w) -> faults w = [] ->
  In f (files (db w)) -> file_path_of (db w) f = Some p ->
  is_special_container special f p = false ->
  exists w',
    deleteFile special (file.file_key f) w = (inr f, w')
    /\ ~ In f (files (db w')).
Proof.
  intros Hc Hm Hfs Hf Hp Hsp. pose proof Hc as [Hpk Hkey Hu Hfk].
  assert (Hl : lookup (db w) (file.file_key f) = Some (f, Some p)).
  { unfold lookup.
    rewrite (find_unique file.file_key String.eqb _ f String.eqb_eq Hkey Hf).
    rewrite Hp. reflexivity. }
  destruct (deleteFile_returns special _ w f p Hc Hm Hfs Hl Hsp) as [w' Hrun].
  exists w'. split; [exact Hrun|].
  destruct (deleteFile_rows special _ w f w' p Hc Hrun Hl) as (_ & _ & Hfiles).
  rewrite Hfiles. intros Hin. apply List.filter_In in Hin as [_ Hin].
  cbn [map mem existsb] in Hin. rewrite Z.eqb_refl in Hin. discriminate.
Qed.

End DeleteFileKeeps.

(** ** More on [moveToTrash] *)

Lemma only_paths_refl w : only_paths w w.
Proof. repeat split. Qed.

Lemma only_paths_trans w1 w2 w3 :
  only_paths w1 w2 -> only_paths w2 w3 -> only_paths w1 w3.
Proof.
  intros (H1 & H2 & H3 & H4 & H5) (K1 & K2 & K3 & K4 & K5).
  repeat split; congruence.
Qed.

Lemma only_paths_set_faults w fs : only_paths w (set_faults fs w).
Proof. repeat split. Qed.

(** A sequence of updates of rows that exist goes through when the store
    refuses nothing. *)
Lemma sequence_updates_run {A} (i : A -> Z) (np : A -> list Z) (l : list A) :
  forall w,
    faults w = [] ->
    (forall a, In a l -> In (i a) (map file_path.file_id (file_paths (db w)))) ->
    exists r w',
      sequence (map (fun a => file_path_update (i a) (np a)) l) w = (inr r, w')
      /\ faults w' = [].
Proof.
  induction l as [|a l IH]; intros w Hfs Hin; cbn [map sequence].
  - exists [], w. split; [reflexivity|exact Hfs].
  - rewrite bind_run. unfold file_path_update at 1.
    rewrite statement_no_fault by exact Hfs.
    destruct (List.find _ (file_paths (db w))) as [x|] eqn:Hfind.
    + set (w1 := set_db _ w).
      destruct (IH w1) as (r & w' & Hrun & Hfs').
      * exact Hfs.
      * intros b Hb. subst w1. cbn [db set_db file_paths].
        rewrite set_path_file_id. apply Hin. right. exact Hb.
      * exists (file_path.mk (i a) (np a) :: r), w'.
        rewrite bind_run, Hrun. split; [reflexivity|exact Hfs'].
    + exfalso. assert (Ha : In (i a) (map file_path.file_id (file_paths (db w))))
        by (apply Hin; left; reflexivity).
      apply in_map_iff in Ha as (q & E & Hq).
      apply (find_none _ _ Hfind) in Hq. rewrite E, Z.eqb_refl in Hq.
      discriminate.
Qed.

Section MoveToTrashMore.

Variable special : string -> bool.

(** X8: a target without a path row. When the store answers and one trash
    container is found, [moveToTrash] with the key of a file that has no path
    row throws InternalServerErrorException ('Target file path not found'),
    and the tables and the storage are unchanged. *)
Theorem moveToTrash_target_without_path memberId rootFileId targetFileKey w t f :
  hd false (faults w) = false ->
  hd false (tl (faults w)) = false ->
  trash_containers (db w) memberId rootFileId = [t] ->
  lookup (db w) targetFileKey = Some (f, None) ->
  let r := moveToTrash special memberId rootFileId targetFileKey w in
  fst r = inl (InternalServerErrorException "Target file path not found")
  /\ db (snd r) = db w
  /\ blobs (snd r) = blobs w
  /\ storage_calls (snd r) = storage_calls w.
Proof.
  intros Hf1 Hf2 Ht Hl r.
  assert (Hin : In t (trash_containers (db w) memberId rootFileId))
    by (rewrite Ht; left; reflexivity).
  apply trash_containers_file_path in Hin as (trashp & Htp & _).
  subst r. unfold moveToTrash. rewrite bind_run.
  unfold file_findMany_trash. rewrite query_accepted by exact Hf1.
  rewrite Ht. cbn [map]. rewrite Htp. rewrite bind_run. unfold throw_if.
  replace (1 <? len _) with false by reflexivity.
  cbn [ret]. rewrite bind_run. unfold file_findUniqueOrThrow.
  rewrite statement_accepted by exact Hf2.
  cbn [db set_faults]. rewrite Hl. simpl. auto.
Qed.

(** X9: whatever its outcome, [moveToTrash] changes nothing but paths: the
    files, the uploads in flight, the blobs and the calls to the storage are
    what they were, and the path rows are the rows of the same files. *)
Theorem moveToTrash_only_paths memberId rootFileId targetFileKey w :
  only_paths w (snd (moveToTrash special memberId rootFileId targetFileKey w)).
Proof.
  revert w.
  change (preserves only_paths
            (moveToTrash special memberId rootFileId targetFileKey)).
  pose proof only_paths_refl as Hr. pose proof only_paths_trans as Ht.
  assert (Hread : forall w fs, only_paths w (set_db (db w) (set_faults fs w))).
  { intros w fs. repeat split. }
  unfold moveToTrash.
  apply preserves_bind; [exact Ht| |].
  { apply preserves_query. exact only_paths_set_faults. }
  intros [|[i [trashp|]] trash]; try (apply preserves_throw; exact Hr).
  apply preserves_bind; [exact Ht|apply preserves_throw_if; exact Hr|].
  intros _. apply preserves_bind; [exact Ht| |].
  { apply preserves_statement; [exact only_paths_set_faults|].
    intros w fs a d H. destruct (lookup (db w) targetFileKey); inversion H; subst.
    apply Hread. }
  intros [target [tp|]]; [|apply preserves_throw; exact Hr].
  apply preserves_bind; [exact Ht|apply preserves_throw_if; exact Hr|].
  intros _. apply preserves_bind; [exact Ht| |].
  { apply preserves_query. exact only_paths_set_faults. }
  intros targetAncestors. apply preserves_bind; [exact Ht| |].
  2:{ intros _. apply preserves_ret. exact Hr. }
  intros w. unfold transaction.
  match goal with |- context [sequence ?ms w] =>
    assert (Hseq : only_paths w (snd (sequence ms w)));
    [|destruct (sequence ms w) as [[e|r] w1]] end.
  - apply preserves_sequence; [exact Hr|exact Ht|].
    intros m Hm. apply in_map_iff in Hm as (a & <- & _).
    apply preserves_statement; [exact only_paths_set_faults|].
    intros w2 fs x d H.
    destruct (List.find _ (file_paths (db w2))); inversion H; subst.
    repeat split. cbn. apply set_path_file_id.
  - simpl in *. destruct Hseq as (H1 & H2 & H3 & H4 & H5). repeat split; auto.
  - exact Hseq.
Qed.

(** X13: on a store that refuses nothing, with one trash container for the
    member, [moveToTrash] of a file that has a path row and is not a special
    container returns [true]. *)
Theorem moveToTrash_returns_true memberId rootFileId targetFileKey w t target tp :
  faults w = [] ->
  trash_containers (db w) memberId rootFileId = [t] ->
  lookup (db w) targetFileKey = Some (target, Some tp) ->
  is_special_container special target tp = false ->
  exists w',
    moveToTrash special memberId rootFileId targetFileKey w = (inr true, w').
Proof.
  intros Hfs Ht Hl Hsp.
  assert (Hin : In t (trash_containers (db w) memberId rootFileId))
    by (rewrite Ht; left; reflexivity).
  apply trash_containers_file_path in Hin as (trashp & Htp & _).
  pose proof (lookup_Some _ _ _ _ Hl) as (_ & _ & Hp). symmetry in Hp.
  apply file_path_of_Some in Hp as [Hp _].
  unfold moveToTrash. rewrite bind_run.
  unfold file_findMany_trash, query. rewrite statement_no_fault by exact Hfs.
  rewrite Ht. cbn [map]. rewrite Htp. rewrite bind_run. unfold throw_if.
  replace (1 <? len _) with false by reflexivity.
  cbn [ret]. rewrite bind_run. unfold file_findUniqueOrThrow.
  rewrite statement_no_fault by exact Hfs.
  cbn [db set_db]. rewrite Hl. rewrite bind_run. rewrite Hsp.
  cbn [ret]. rewrite bind_run. unfold file_path_findMany, query.
  rewrite statement_no_fault by exact Hfs.
  cbn [db set_db]. rewrite bind_run. unfold transaction.
  match goal with |- context [sequence (map ?f ?l) ?w1] =>
    destruct (sequence_updates_run file_path.file_id
                (moved_path trashp t tp target) l w1) as (r & w' & Hrun & _)
  end.
  - exact Hfs.
  - intros a Ha. apply in_map. cbn.
    apply in_app_or in Ha as [Ha|[<-|[]]]; [|exact Hp].
    unfold paths_hasEvery in Ha. apply List.filter_In in Ha. tauto.
  - unfold moved_path in Hrun. rewrite Hrun. eexists. reflexivity.
Qed.

End MoveToTrashMore.

(** ** The paths after a move *)

Section MoveToTrashPaths.

Variable special : string -> bool.

(** After a [moveToTrash] that returns, every row of the subtree of the
    target carries its moved path and every other row is what it was. *)
Lemma moveToTrash_moved memberId rootFileId targetFileKey w b w' :
  constraints (db w) -> materialized (db w) ->
  moveToTrash special memberId rootFileId targetFileKey w = (inr b, w') ->
  exists t trashp target tp,
    trash_containers (db w) memberId rootFileId = [t]
    /\ file_path_of (db w) t = Some trashp
    /\ lookup (db w) targetFileKey = Some (target, Some tp)
    /\ is_special_container special target tp = false
    /\ files (db w') = files (db w)
    /\ temp_files (db w') = temp_files (db w)
    /\ file_paths (db w') =
       map (fun q =>
              if in_subtree target q
              then file_path.mk (file_path.file_id q)
                     (moved_path trashp t tp target q)
              else q)
         (file_paths (db w)).
Proof.
  intros Hc Hm E.
  apply moveToTrash_inr in E
    as (t & trashp & target & tp & Ht & Htrashp & Hl & Hsp & Hfiles & Htemp
        & Hpaths & _).
  exists t, trashp, target, tp. repeat (split; [assumption|]).
  pose proof (lookup_Some _ _ _ _ Hl) as (Htarget & _ & Htp). symmetry in Htp.
  pose proof (file_path_of_Some _ _ _ Htp) as [Htpin Htpid].
  destruct (move_targets (db w) target tp Hc Hm Htpin Htpid)
    as (Hnd & Hsub & Htargets).
  pose proof Hc as [Hpk Hkey Hu Hfk].
  rewrite fold_set_path in Hpaths by exact Hnd. rewrite Hpaths.
  apply map_ext_in. intros q Hq.
  assert (Hsame : q = tp <-> file_path.file_id q = file.id target).
  { split; [intros ->; exact Htpid|].
    intros E. apply (NoDup_map_eq file_path.file_id (file_paths (db w))); auto.
    congruence. }
  unfold in_subtree.
  destruct (Z.eqb (file_path.file_id q) (file.id target)
            || mem (file.id target) (file_path.path q)) eqn:Hin.
  - assert (Hq' : In q (paths_hasEvery (db w)
                          (file_path.path tp ++ [file.id target]) ++ [tp])).
    { apply (Htargets q Hq). apply orb_true_iff in Hin as [Hin|Hin].
      - left. apply Hsame. apply Z.eqb_eq. exact Hin.
      - right. apply mem_In. exact Hin. }
    rewrite (find_unique file_path.file_id Z.eqb _ q Z.eqb_eq Hnd Hq').
    reflexivity.
  - apply orb_false_iff in Hin as [Hne Hnot].
    apply Z.eqb_neq in Hne. apply mem_false in Hnot.
    destruct (List.find _ _) as [a|] eqn:Hfind; [|reflexivity].
    exfalso. apply find_some in Hfind as [Ha Ea]. apply Z.eqb_eq in Ea.
    assert (a = q).
    { apply (NoDup_map_eq file_path.file_id (file_paths (db w))); auto. }
    subst a. apply (Htargets q Hq) in Ha. rewrite Hsame in Ha. tauto.
Qed.

(** The moved path of a row of the subtree. *)
Lemma moved_path_through trashp t tp target q rest :
  file_path.path q = file_path.path tp ++ file.id target :: rest ->
  moved_path trashp t tp target q =
  (file_path.path trashp ++ [file.id t]) ++ file.id target :: rest.
Proof.
  intros E. unfold moved_path. rewrite E, slice_prefix. reflexivity.
Qed.

(** X12: moving what is in the trash already. On a store that keeps its
    constraints and whose paths are materialized, when the target lies
    directly in the trash container (its path is the path of the trash
    container followed by the identifier of the trash container), a
    [moveToTrash] that returns has changed no table. *)
Theorem moveToTrash_in_trash memberId rootFileId targetFileKey w t trashp target tp
    b w' :
  constraints (db w) -> materialized (db w) ->
  trash_containers (db w) memberId rootFileId = [t] ->
  file_path_of (db w) t = Some trashp ->
  lookup (db w) targetFileKey = Some (target, Some tp) ->
  file_path.path tp = file_path.path trashp ++ [file.id t] ->
  moveToTrash special memberId rootFileId targetFileKey w = (inr b, w') ->
  db w' = db w.
Proof.
  intros Hc Hm Ht Htrashp Hl Hin E.
  apply (moveToTrash_moved _ _ _ _ _ _ Hc Hm) in E
    as (t' & trashp' & target' & tp' & Ht' & Htrashp' & Hl' & _ & Hfiles & Htemp
        & Hpaths).
  rewrite Ht in Ht'. inversion Ht'; subst t'.
  rewrite Htrashp in Htrashp'. inversion Htrashp'; subst trashp'.
  rewrite Hl in Hl'. inversion Hl'; subst target' tp'.
  pose proof (lookup_Some _ _ _ _ Hl) as (_ & _ & Htp). symmetry in Htp.
  pose proof (file_path_of_Some _ _ _ Htp) as [Htpin Htpid].
  pose proof Hc as [Hpk Hkey Hu Hfk].
  assert (Hsame : file_paths (db w') = file_paths (db w)).
  { rewrite Hpaths. rewrite <- (map_id (file_paths (db w))) at 2.
    apply map_ext_in. intros q Hq. unfold in_subtree.
    destruct (Z.eqb (file_path.file_id q) (file.id target)) eqn:Hid; cbn [orb].
    - apply Z.eqb_eq in Hid.
      assert (q = tp).
      { apply (NoDup_map_eq file_path.file_id (file_paths (db w))); auto.
        congruence. }
      subst q. unfold moved_path. rewrite slice_all, app_nil_r, <- Hin.
      destruct tp; reflexivity.
    - destruct (mem (file.id target) (file_path.path q)) eqn:Hmem;
        [|reflexivity].
      apply mem_In in Hmem. rewrite <- Htpid in Hmem.
      apply (through_iff_In (db w) tp q Hu Hm Htpin Hq) in Hmem as (rest & Eq).
      rewrite Htpid in Eq.
      rewrite (moved_path_through trashp t tp target q rest Eq).
      rewrite <- Hin, <- Eq. destruct q; reflexivity. }
  destruct (db w') as [fs' ps' ts'], (db w) as [fs ps ts].
  cbn in *. congruence.
Qed.

(** X10: a move keeps the store sound. After a [moveToTrash] that returns, if
    trash is a well-known name and the target is not the root the trash
    container hangs on, the constraints hold and the paths are materialized:
    every row of the moved subtree finds its parent under the new paths. *)
Theorem moveToTrash_keeps_sound memberId rootFileId targetFileKey w target o b w' :
  constraints (db w) -> materialized (db w) ->
  special SpecialContainerNameSchema_enum_trash = true ->
  lookup (db w) targetFileKey = Some (target, o) ->
  file.id target <> rootFileId ->
  moveToTrash special memberId rootFileId targetFileKey w = (inr b, w') ->
  constraints (db w') /\ materialized (db w').
Proof.
  intros Hc Hm Htrash Hl0 Hroot E.
  split.
  { pose proof (moveToTrash_keeps special memberId rootFileId targetFileKey w)
      as (Hk & _).
    rewrite E in Hk. exact (Hk Hc). }
  apply (moveToTrash_moved _ _ _ _ _ _ Hc Hm) in E
    as (t & trashp & target' & tp & Ht & Htrashp & Hl & Hsp & _ & _ & Hpaths).
  rewrite Hl0 in Hl. inversion Hl; subst target' o. clear Hl.
  pose proof (lookup_Some _ _ _ _ Hl0) as (Htarget & _ & Htp). symmetry in Htp.
  pose proof (file_path_of_Some _ _ _ Htp) as [Htpin Htpid].
  pose proof Hc as [Hpk Hkey Hu Hfk].
  (* the row of the trash container is not moved *)
  assert (Hint : In t (trash_containers (db w) memberId rootFileId))
    by (rewrite Ht; left; reflexivity).
  pose proof (trash_containers_file_path _ _ _ _ Hint) as (p' & Hp' & Heq).
  rewrite Htrashp in Hp'. inversion Hp'; subst p'; clear Hp'.
  apply equals_eq in Heq.
  unfold trash_containers in Hint. apply List.filter_In in Hint as [Htin Hcond].
  apply andb_true_iff in Hcond as [Hcond _].
  apply andb_true_iff in Hcond as [_ Hname]. apply String.eqb_eq in Hname.
  pose proof (file_path_of_Some _ _ _ Htrashp) as [Htrashpin Htrashpid].
  assert (Hkept : in_subtree target trashp = false).
  { unfold in_subtree. apply orb_false_iff. split.
    - apply Z.eqb_neq. rewrite Htrashpid. intros Eid.
      assert (t = target).
      { apply (NoDup_map_eq file.id (files (db w))); auto. }
      subst t. rewrite Htp in Htrashp. inversion Htrashp; subst tp.
      unfold is_special_container in Hsp.
      rewrite Hname, Htrash, Heq in Hsp. discriminate.
    - apply mem_false. rewrite Heq. simpl. intros [H|[]]. congruence. }
  set (G := fun q =>
              if in_subtree target q
              then file_path.mk (file_path.file_id q)
                     (moved_path trashp t tp target q)
              else q) in *.
  assert (HGid : forall q, file_path.file_id (G q) = file_path.file_id q).
  { intros q. subst G. cbv beta. destruct (in_subtree target q); reflexivity. }
  assert (Hsub : forall q, In q (file_paths (db w)) ->
    in_subtree target q = true ->
    q = tp \/ exists rest,
      file_path.path q = file_path.path tp ++ file.id target :: rest).
  { intros q Hq Hin. unfold in_subtree in Hin.
    apply orb_true_iff in Hin as [Hin|Hin].
    - left. apply Z.eqb_eq in Hin.
      apply (NoDup_map_eq file_path.file_id (file_paths (db w))); auto.
      congruence.
    - right. apply mem_In in Hin. rewrite <- Htpid in Hin.
      apply (through_iff_In (db w) tp q Hu Hm Htpin Hq) in Hin as (rest & Eq).
      exists rest. rewrite <- Htpid. exact Eq. }
  assert (HGtp : file_path.path (G tp) = file_path.path trashp ++ [file.id t]).
  { subst G. cbv beta. unfold in_subtree. rewrite Htpid, Z.eqb_refl. cbn [orb].
    cbn [file_path.path]. unfold moved_path. rewrite slice_all, app_nil_r.
    reflexivity. }
  assert (HGsub : forall q rest,
    file_path.path q = file_path.path tp ++ file.id target :: rest ->
    file_path.path (G q) =
    (file_path.path trashp ++ [file.id t]) ++ file.id target :: rest).
  { intros q rest Eq. subst G. cbv beta. unfold in_subtree.
    replace (mem (file.id target) (file_path.path q)) with true.
    2:{ symmetry. apply mem_In. rewrite Eq. apply in_or_app. simpl. auto. }
    rewrite orb_true_r. cbn [file_path.path].
    apply moved_path_through. exact Eq. }
  intros p' Hp'. rewrite Hpaths in Hp'.
  apply in_map_iff in Hp' as (p0 & <- & Hp0).
  destruct (in_subtree target p0) eqn:Hin0.
  - destruct (Hsub p0 Hp0 Hin0) as [->|(rest & Eq)].
    + (* the target: its parent is the trash container *)
      right. exists trashp. split.
      * rewrite Hpaths. apply in_map_iff. exists trashp.
        split; [|exact Htrashpin]. subst G. cbv beta. rewrite Hkept. reflexivity.
      * rewrite HGtp, Htrashpid. reflexivity.
    + (* a descendant: its parent moved with it *)
      right. destruct (Hm p0 Hp0) as [Enil|(q & Hq & Eparent)].
      { rewrite Enil in Eq. destruct (file_path.path tp); discriminate. }
      rewrite (HGsub p0 rest Eq).
      destruct (exists_last (l := file.id target :: rest)) as (body & x & Ebody);
        [discriminate|].
      destruct rest as [|y rest'].
      * (* a child of the target *)
        rewrite Eq in Eparent. apply app_inj_tail in Eparent as [Epath Eid].
        assert (q = tp).
        { apply (NoDup_map_eq file_path.file_id (file_paths (db w))); auto.
          congruence. }
        subst q. exists (G tp). split.
        -- rewrite Hpaths. apply in_map. exact Htpin.
        -- rewrite HGtp, HGid, Htpid. reflexivity.
      * destruct (exists_last (l := y :: rest')) as (rest0 & z & Erest);
          [discriminate|].
        rewrite Erest in *.
        rewrite Eq in Eparent.
        replace (file_path.path tp ++ file.id target :: rest0 ++ [z])
          with ((file_path.path tp ++ file.id target :: rest0) ++ [z])
          in Eparent by (rewrite <- app_assoc; reflexivity).
        apply app_inj_tail in Eparent as [Epath Eid].
        exists (G q). split.
        -- rewrite Hpaths. apply in_map. exact Hq.
        -- rewrite (HGsub q rest0 (eq_sym Epath)), HGid, <- Eid.
           rewrite <- !app_assoc. reflexivity.
  - (* a row outside the subtree: its parent is outside too *)
    assert (HG0 : G p0 = p0) by (subst G; cbv beta; rewrite Hin0; reflexivity).
    rewrite HG0.
    destruct (Hm p0 Hp0) as [Enil|(q & Hq & Eparent)]; [left; exact Enil|right].
    exists q. split; [|exact Eparent].
    rewrite Hpaths. apply in_map_iff. exists q. split; [|exact Hq].
    subst G. cbv beta.
    replace (in_subtree target q) with false; [reflexivity|].
    symmetry. unfold in_subtree in *.
    apply orb_false_iff in Hin0 as [_ Hnot]. apply mem_false in Hnot.
    apply orb_false_iff. split.
    + apply Z.eqb_neq. intros Eid. apply Hnot. rewrite Eparent.
      apply in_or_app. right. left. exact Eid.
    + apply mem_false. intros Hq'. apply Hnot. rewrite Eparent.
      apply in_or_app. left. exact Hq'.
Qed.

(** X11: nothing stops a move of the root. When the target is the root the
    trash container hangs on, a [moveToTrash] that returns has put the root
    under the trash container and the trash container under the root it was
    moved with: the path of the trash container is root, trash, root, and the
    paths are no longer materialized. *)
Theorem moveToTrash_root memberId rootFileId targetFileKey w target o b w' :
  constraints (db w) -> materialized (db w) ->
  lookup (db w) targetFileKey = Some (target, o) ->
  file.id target = rootFileId ->
  moveToTrash special memberId rootFileId targetFileKey w = (inr b, w') ->
  exists t,
    trash_containers (db w) memberId rootFileId = [t]
    /\ path_of (db w') (file.id target) = Some [rootFileId; file.id t]
    /\ path_of (db w') (file.id t) = Some [rootFileId; file.id t; rootFileId]
    /\ ~ materialized (db w').
Proof.
  intros Hc Hm Hl0 Hroot E.
  assert (Hc' : constraints (db w')).
  { pose proof (moveToTrash_keeps special memberId rootFileId targetFileKey w)
      as (Hk & _).
    rewrite E in Hk. exact (Hk Hc). }
  apply (moveToTrash_moved _ _ _ _ _ _ Hc Hm) in E
    as (t & trashp & target' & tp & Ht & Htrashp & Hl & Hsp & _ & _ & Hpaths).
  rewrite Hl0 in Hl. inversion Hl; subst target' o. clear Hl.
  exists t. split; [exact Ht|].
  pose proof (lookup_Some _ _ _ _ Hl0) as (Htarget & _ & Htp). symmetry in Htp.
  pose proof (file_path_of_Some _ _ _ Htp) as [Htpin Htpid].
  pose proof Hc as [Hpk Hkey Hu Hfk].
  assert (Hint : In t (trash_containers (db w) memberId rootFileId))
    by (rewrite Ht; left; reflexivity).
  pose proof (trash_containers_file_path _ _ _ _ Hint) as (p' & Hp' & Heq).
  rewrite Htrashp in Hp'. inversion Hp'; subst p'; clear Hp'.
  apply equals_eq in Heq.
  pose proof (file_path_of_Some _ _ _ Htrashp) as [Htrashpin Htrashpid].
  (* the root has the empty path *)
  assert (Hnil : file_path.path tp = []).
  { assert (Hin : In (file_path.file_id tp) (file_path.path trashp)).
    { rewrite Heq, Htpid, Hroot. left. reflexivity. }
    apply (through_iff_In (db w) tp trashp Hu Hm Htpin Htrashpin) in Hin
      as (rest & Eq).
    rewrite Heq in Eq. destruct (file_path.path tp) as [|x l]; [reflexivity|].
    destruct l; discriminate. }
  set (G := fun q =>
              if in_subtree target q
              then file_path.mk (file_path.file_id q)
                     (moved_path trashp t tp target q)
              else q) in *.
  assert (HGid : forall q, file_path.file_id (G q) = file_path.file_id q).
  { intros q. subst G. cbv beta. destruct (in_subtree target q); reflexivity. }
  assert (Hnewtp : file_path.path (G tp) = [rootFileId; file.id t]).
  { subst G. cbv beta. unfold in_subtree. rewrite Htpid, Z.eqb_refl. cbn [orb].
    cbn [file_path.path]. unfold moved_path.
    rewrite slice_all, app_nil_r, Heq. reflexivity. }
  assert (Hnewtrash :
    file_path.path (G trashp) = [rootFileId; file.id t; rootFileId]).
  { subst G. cbv beta. unfold in_subtree.
    replace (mem (file.id target) (file_path.path trashp)) with true.
    2:{ symmetry. apply mem_In. rewrite Heq, Hroot. left. reflexivity. }
    rewrite orb_true_r. cbn [file_path.path].
    rewrite (moved_path_through trashp t tp target trashp []).
    - rewrite Heq, Hroot. reflexivity.
    - rewrite Hnil, Heq, Hroot. reflexivity. }
  split; [|split].
  - rewrite <- Htpid.
    rewrite (path_of_map G (db w) (db w') _ HGid Hpaths).
    rewrite (find_unique file_path.file_id Z.eqb _ tp Z.eqb_eq Hu Htpin).
    rewrite Hnewtp. reflexivity.
  - rewrite <- Htrashpid.
    rewrite (path_of_map G (db w) (db w') _ HGid Hpaths).
    rewrite (find_unique file_path.file_id Z.eqb _ trashp Z.eqb_eq Hu Htrashpin).
    rewrite Hnewtrash, Htrashpid. reflexivity.
  - intros Hm'. destruct Hc' as [_ _ Hu' _].
    apply (self_not_in_path (db w') (G trashp) Hu' Hm').
    + rewrite Hpaths. apply in_map. exact Htrashpin.
    + rewrite HGid, Hnewtrash, Htrashpid. right. left. reflexivity.
Qed.

End MoveToTrashPaths.

(** ** The further properties on the store [db0] *)

Lemma deleteFile_refused_delete_witness :
  In f_docs
    (files (db (snd (deleteFile enum_trash_only "k-docs"
                       (w0 [false; false; false; true])))))
  /\ ~ In f_b
       (files (db (snd (deleteFile enum_trash_only "k-docs"
                          (w0 [false; false; false; true]))))).
Proof.
  pose proof (deleteFile_refused_delete enum_trash_only "k-docs"
                (w0 [false; false; false; true]) f_docs (file_path.mk 3 [1]) []
                eq_refl eq_refl eq_refl) as H.
  cbv zeta in H. destruct H as (_ & _ & Hgone & Hkept).
  split.
  - apply Hkept; [exact db0_constraints|exact db0_materialized].
  - apply Hgone. vm_compute. tauto.
Defined.

Lemma deleteFile_refused_deleteMany_witness :
  In f_a (files (db (snd (deleteFile enum_trash_only "k-docs"
                            (w0 [false; false; true])))))
  /\ file.file_key f_a
     ∉ blobs (snd (deleteFile enum_trash_only "k-docs" (w0 [false; false; true]))).
Proof.
  pose proof (deleteFile_refused_deleteMany enum_trash_only "k-docs"
                (w0 [false; false; true]) f_docs (file_path.mk 3 [1]) []
                eq_refl eq_refl eq_refl) as H.
  cbv zeta in H. destruct H as (_ & _ & _ & H).
  apply (H f_a); [vm_compute; tauto|reflexivity].
Defined.

Lemma deleteFile_docs_returns :
  deleteFile enum_trash_only "k-docs" (w0 []) =
  (inr f_docs, snd (deleteFile enum_trash_only "k-docs" (w0 []))).
Proof. vm_compute. reflexivity. Qed.

(** The upload in flight to docs goes with docs. *)
Lemma deleteFile_cascade_witness :
  temp_files (db (snd (deleteFile enum_trash_only "k-docs" (w0 [])))) = []
  /\ path_of (db (snd (deleteFile enum_trash_only "k-docs" (w0 [])))) 6 = None.
Proof.
  destruct (deleteFile_cascade enum_trash_only "k-docs" (w0 []) f_docs _
              db0_constraints deleteFile_docs_returns)
    as (p & Hl & Hpaths & Htemp & _).
  vm_compute in Hl. inversion Hl; subst p; clear Hl.
  split.
  - rewrite Htemp. reflexivity.
  - unfold path_of. rewrite Hpaths. reflexivity.
Defined.

Lemma deleteFile_keeps_sound_witness :
  constraints
    (db (snd (deleteFile enum_trash_only "k-docs" (w0 [false; false; false; true]))))
  /\ materialized
       (db (snd (deleteFile enum_trash_only "k-docs"
                   (w0 [false; false; false; true])))).
Proof.
  exact (deleteFile_keeps_sound enum_trash_only "k-docs"
           (w0 [false; false; false; true]) db0_constraints db0_materialized).
Defined.

Lemma deleteFile_again_witness :
  fst (deleteFile enum_trash_only "k-b"
         (snd (deleteFile enum_trash_only "k-docs" (w0 [])))) = inl P2025.
Proof.
  destruct (deleteFile_again enum_trash_only "k-docs" (w0 []) f_docs _
              db0_constraints deleteFile_docs_returns eq_refl) as (p & Hl & H).
  vm_compute in Hl. inversion Hl; subst p; clear Hl.
  apply (H f_b). vm_compute. tauto.
Defined.

Lemma deleteFile_returns_row_witness :
  exists w', deleteFile enum_trash_only "k-a" (w0 []) = (inr f_a, w').
Proof.
  destruct (deleteFile_returns_row enum_trash_only (w0 []) f_a
              (file_path.mk 4 [1; 3]) db0_constraints db0_materialized eq_refl)
    as (w' & Hrun & _).
  - vm_compute. tauto.
  - reflexivity.
  - reflexivity.
  - exists w'. exact Hrun.
Defined.

Lemma moveToTrash_target_without_path_witness :
  fst (moveToTrash enum_trash_only 7 1 "k-nopath" (w0 [])) =
  inl (InternalServerErrorException "Target file path not found").
Proof.
  exact (proj1 (moveToTrash_target_without_path enum_trash_only 7 1 "k-nopath" (w0 [])
                  f_trash f_nopath eq_refl eq_refl eq_refl eq_refl)).
Defined.

Lemma moveToTrash_docs_returns :
  moveToTrash enum_trash_only 7 1 "k-docs" (w0 []) =
  (inr true, snd (moveToTrash enum_trash_only 7 1 "k-docs" (w0 []))).
Proof. vm_compute. reflexivity. Qed.

Lemma moveToTrash_keeps_sound_witness :
  materialized (db (snd (moveToTrash enum_trash_only 7 1 "k-docs" (w0 [])))).
Proof.
  apply (moveToTrash_keeps_sound enum_trash_only 7 1 "k-docs" (w0 []) f_docs
           (Some (file_path.mk 3 [1])) true _ db0_constraints db0_materialized
           eq_refl eq_refl).
  - discriminate.
  - exact moveToTrash_docs_returns.
Defined.

(** The root of member 7 goes to the trash, and the trash with it. *)
Lemma moveToTrash_root_witness :
  path_of (db (snd (moveToTrash enum_trash_only 7 1 "k-root" (w0 [])))) 2 =
  Some [1; 2; 1].
Proof.
  assert (Hrun : moveToTrash enum_trash_only 7 1 "k-root" (w0 []) =
                 (inr true, snd (moveToTrash enum_trash_only 7 1 "k-root" (w0 [])))).
  { vm_compute. reflexivity. }
  destruct (moveToTrash_root enum_trash_only 7 1 "k-root" (w0 []) f_root
              (Some (file_path.mk 1 [])) true _ db0_constraints db0_materialized
              eq_refl eq_refl Hrun) as (t & Ht & _ & Hp & _).
  vm_compute in Ht. inversion Ht; subst t. exact Hp.
Defined.

(** Moving docs to the trash a second time changes nothing. *)
Lemma moveToTrash_in_trash_witness :
  db (snd (moveToTrash enum_trash_only 7 1 "k-docs"
             (snd (moveToTrash enum_trash_only 7 1 "k-docs" (w0 []))))) =
  db (snd (moveToTrash enum_trash_only 7 1 "k-docs" (w0 []))).
Proof.
  apply (moveToTrash_in_trash enum_trash_only 7 1 "k-docs"
           (snd (moveToTrash enum_trash_only 7 1 "k-docs" (w0 [])))
           f_trash (file_path.mk 2 [1]) f_docs (file_path.mk 3 [1; 2]) true).
  - apply check_constraints_sound. vm_compute. reflexivity.
  - apply check_materialized_sound. vm_compute. reflexivity.
  - vm_compute. reflexivity.
  - vm_compute. reflexivity.
  - vm_compute. reflexivity.
  - reflexivity.
  - vm_compute. reflexivity.
Defined.

Lemma moveToTrash_returns_true_witness :
  exists w', moveToTrash enum_trash_only 7 1 "k-c" (w0 []) = (inr true, w').
Proof.
  exact (moveToTrash_returns_true enum_trash_only 7 1 "k-c" (w0 []) f_trash f_c
           (file_path.mk 8 [1]) eq_refl eq_refl eq_refl eq_refl).
Defined.
